(** * Snake: the game state machine of the ClassicSnakeGame component

    The repository holds several copies of one React component.  Two of
    them are embedded here:

    - [Game]: the copy with the queued direction, the bounded food retry
      and the level curve (directionRef / queuedDirectionRef,
      MAX_FOOD_ATTEMPTS = 100, calculateLevel, calculateSpeed);
    - [AppTsx]: the first component of src/App.tsx, whose checkCollision
      closes over the whole [snake] and whose food loop has no bound.

    Coordinates are JavaScript numbers that only ever hold small integers;
    they are modelled as [Z].  [Math.random] is modelled by an oracle: the
    k-th call of [Math.floor(Math.random() * GRID_SIZE)] returns [rng k],
    and the state carries the number of calls made so far. *)

From Stdlib Require Import ZArith List Lia Bool.
Import ListNotations.
Open Scope Z_scope.

(** ** Shared data model *)

Inductive Direction : Type := UP | DOWN | LEFT | RIGHT.

Definition Direction_eqb (a b : Direction) : bool :=
  match a, b with
  | UP, UP | DOWN, DOWN | LEFT, LEFT | RIGHT, RIGHT => true
  | _, _ => false
  end.

Definition opposite (d : Direction) : Direction :=
  match d with
  | UP => DOWN
  | DOWN => UP
  | LEFT => RIGHT
  | RIGHT => LEFT
  end.

Module Position.
Record t : Type := mk { x : Z; y : Z }.

(** [a.x === b.x && a.y === b.y] *)
Definition eqb (a b : t) : bool := (x a =? x b) && (y a =? y b).
End Position.

Definition Position : Type := Position.t.
Notation "<< a , b >>" := (Position.mk a b) (at level 0, a at level 99, b at level 99).

Definition GRID_SIZE : Z := 30.
Definition INITIAL_SNAKE : list Position :=
  [ << GRID_SIZE / 2, GRID_SIZE / 2 >> ].
Definition INITIAL_DIRECTION : Direction := RIGHT.

Definition SCORE_PER_LEVEL : Z := 5.
Definition MAX_LEVEL : Z := 10.
Definition BASE_SPEED : Z := 200.
Definition SPEED_DECREMENT : Z := 15.

(** The random oracle: [rng k] is the value of the k-th
    [Math.floor(Math.random() * GRID_SIZE)]. *)
Definition Rng : Type := nat -> Z.

Definition rng_ok (rng : Rng) : Prop := forall k, 0 <= rng k < GRID_SIZE.

(** generateRandomPosition: two draws, x first; returns the new call count. *)
Definition generateRandomPosition (rng : Rng) (calls : nat) : Position * nat :=
  (<< rng calls, rng (S calls) >>, S (S calls)).

(** The switch on the direction that moves the copied head. *)
Definition advance (d : Direction) (head : Position) : Position :=
  match d with
  | UP => << Position.x head, Position.y head - 1 >>
  | DOWN => << Position.x head, Position.y head + 1 >>
  | LEFT => << Position.x head - 1, Position.y head >>
  | RIGHT => << Position.x head + 1, Position.y head >>
  end.

(** [segments.some(segment => segment.x === pos.x && segment.y === pos.y)] *)
Definition occupies (segments : list Position) (pos : Position) : bool :=
  existsb (fun segment => Position.eqb segment pos) segments.

(** [pos.x < 0 || pos.x >= GRID_SIZE || pos.y < 0 || pos.y >= GRID_SIZE] *)
Definition outOfGrid (pos : Position) : bool :=
  (Position.x pos <? 0) || (Position.x pos >=? GRID_SIZE)
  || (Position.y pos <? 0) || (Position.y pos >=? GRID_SIZE).

Definition inGrid (pos : Position) : Prop :=
  0 <= Position.x pos < GRID_SIZE /\ 0 <= Position.y pos < GRID_SIZE.

(** The three outcomes the specification names for a candidate head.  The
    code has one boolean; the order of its disjuncts (bounds first, then
    the body) decides which of WALL and SELF is reported. *)
Inductive Outcome : Type := WALL | SELF | FREE.

Definition classify (head : Position) (bodyToCheck : list Position) : Outcome :=
  if outOfGrid head then WALL
  else if occupies bodyToCheck head then SELF
  else FREE.

Inductive Key : Type := ArrowUp | ArrowDown | ArrowLeft | ArrowRight | OtherKey.

Definition keyOf (d : Direction) : Key :=
  match d with
  | UP => ArrowUp
  | DOWN => ArrowDown
  | LEFT => ArrowLeft
  | RIGHT => ArrowRight
  end.

(** calculateLevel and calculateSpeed are the same in both copies.
    [Math.floor(score / SCORE_PER_LEVEL)] on an integer score is the floor
    division of [Z]. *)
Definition calculateLevel (score : Z) : Z :=
  Z.min MAX_LEVEL (score / SCORE_PER_LEVEL + 1).

Definition calculateSpeed (level : Z) : Z :=
  Z.max 50 (BASE_SPEED - (level - 1) * SPEED_DECREMENT).

(** The contract of the difficulty curve in the words of the
    specification, over a configuration. *)
Definition levelFor_spec (maxLevel scorePerLevel score : Z) : Z :=
  Z.min maxLevel (score / scorePerLevel + 1).

Definition intervalFor_spec (minInterval baseInterval decrement level : Z) : Z :=
  Z.max minInterval (baseInterval - (level - 1) * decrement).

(** ** The component with the queued direction *)

Module Game.

Definition MAX_FOOD_ATTEMPTS : nat := 100.

(** The React state and refs of the component, with three counters that
    the source does not hold but its effects determine: [timeouts], the
    pending [setTimeout(() => setFood(generateRandomPosition()), 0)]
    callbacks; [setFoodCalls], how often [setFood] ran; [randomCalls],
    how many [Math.random] calls were made.  [direction] is the React
    state and [directionRef] the ref; every assignment to one comes with
    the same assignment to the other. *)
Record State : Type := mkState {
  snake : list Position;
  food : Position;
  direction : Direction;
  directionRef : Direction;
  queuedDirectionRef : option Direction;
  gameOver : bool;
  level : Z;
  intervalDelay : Z;
  timeouts : nat;
  setFoodCalls : nat;
  randomCalls : nat
}.

Definition setSnake (v : list Position) (s : State) : State :=
  mkState v (food s) (direction s) (directionRef s) (queuedDirectionRef s)
          (gameOver s) (level s) (intervalDelay s) (timeouts s)
          (setFoodCalls s) (randomCalls s).

Definition setFood (v : Position) (s : State) : State :=
  mkState (snake s) v (direction s) (directionRef s) (queuedDirectionRef s)
          (gameOver s) (level s) (intervalDelay s) (timeouts s)
          (S (setFoodCalls s)) (randomCalls s).

Definition setGameOver (v : bool) (s : State) : State :=
  mkState (snake s) (food s) (direction s) (directionRef s)
          (queuedDirectionRef s) v (level s) (intervalDelay s) (timeouts s)
          (setFoodCalls s) (randomCalls s).

Definition setRandomCalls (v : nat) (s : State) : State :=
  mkState (snake s) (food s) (direction s) (directionRef s)
          (queuedDirectionRef s) (gameOver s) (level s) (intervalDelay s)
          (timeouts s) (setFoodCalls s) v.

Definition setQueued (v : option Direction) (s : State) : State :=
  mkState (snake s) (food s) (direction s) (directionRef s) v
          (gameOver s) (level s) (intervalDelay s) (timeouts s)
          (setFoodCalls s) (randomCalls s).

(** [directionRef.current = d; setDirection(d); queuedDirectionRef.current = null] *)
Definition commitDirection (d : Direction) (s : State) : State :=
  mkState (snake s) (food s) d d None
          (gameOver s) (level s) (intervalDelay s) (timeouts s)
          (setFoodCalls s) (randomCalls s).

Definition setLevelAndDelay (l i : Z) (s : State) : State :=
  mkState (snake s) (food s) (direction s) (directionRef s)
          (queuedDirectionRef s) (gameOver s) l i (timeouts s)
          (setFoodCalls s) (randomCalls s).

(** [const score = snake.length - 1] *)
Definition score (s : State) : Z := Z.of_nat (length (snake s)) - 1.

Definition checkCollision (pos : Position) (snakeSegments : list Position) : bool :=
  outOfGrid pos || occupies snakeSegments pos.

(** The retry loop
    [while (segments.some(...) && attempts < MAX_FOOD_ATTEMPTS)
       { newFood = generateRandomPosition(); attempts++; }].
    [budget] is [MAX_FOOD_ATTEMPTS - attempts]: the loop stops when it
    reaches 0.  Returns the last draw, [attempts] and the call count. *)
Fixpoint retryFood (rng : Rng) (budget : nat) (segments : list Position)
         (newFood : Position) (attempts calls : nat) : Position * nat * nat :=
  match budget with
  | O => (newFood, attempts, calls)
  | S budget' =>
      if occupies segments newFood then
        let '(p, calls') := generateRandomPosition rng calls in
        retryFood rng budget' segments p (S attempts) calls'
      else (newFood, attempts, calls)
  end.

(** [let newFood = generateRandomPosition(); let attempts = 0; while ...] *)
Definition placeFood (rng : Rng) (segments : list Position) (calls : nat)
  : Position * nat * nat :=
  let '(p, calls') := generateRandomPosition rng calls in
  retryFood rng MAX_FOOD_ATTEMPTS segments p 0%nat calls'.

(** Step 1 of moveSnake: the queued direction, when there is one,
    becomes the direction of this tick. *)
Definition consumeQueued (s : State) : State :=
  match queuedDirectionRef s with
  | Some newDirection => commitDirection newDirection s
  | None => s
  end.

(** The updater passed to setSnake, with the setGameOver and setFood it
    calls.  On an empty array the copied head is [{}], its moved
    coordinate is NaN, every comparison is false, and the unshift is
    undone by the pop: the array stays empty. *)
Definition moveSnake (rng : Rng) (s : State) : State :=
  if gameOver s then s
  else
    let s1 := consumeQueued s in
    let prevSnake := snake s1 in
    match prevSnake with
    | [] => s1
    | head0 :: _ =>
        let head := advance (directionRef s1) head0 in
        let willEatFood := Position.eqb head (food s1) in
        let snakeBodyToCheck :=
          if willEatFood then prevSnake else removelast prevSnake in
        if checkCollision head snakeBodyToCheck then setGameOver true s1
        else
          let newSnake := head :: prevSnake in
          if willEatFood then
            let '(newFood, _, calls) := placeFood rng newSnake (randomCalls s1) in
            setSnake newSnake (setFood newFood (setRandomCalls calls s1))
          else setSnake (removelast newSnake) s1
    end.

Definition resetGame (rng : Rng) (s : State) : State :=
  let newSnake := INITIAL_SNAKE in
  let '(drawn, attempts, calls) := placeFood rng newSnake (randomCalls s) in
  let exhausted := (MAX_FOOD_ATTEMPTS <=? attempts)%nat in
  let newFood := if exhausted then << -1, -1 >> else drawn in
  mkState newSnake newFood INITIAL_DIRECTION INITIAL_DIRECTION None false
          1 BASE_SPEED
          (if exhausted then S (timeouts s) else timeouts s)
          (S (setFoodCalls s)) calls.

(** One pending [setTimeout(() => setFood(generateRandomPosition()), 0)]
    callback runs: an unconditional draw. *)
Definition runTimeout (rng : Rng) (s : State) : State :=
  match timeouts s with
  | O => s
  | S n =>
      let '(p, calls) := generateRandomPosition rng (randomCalls s) in
      mkState (snake s) p (direction s) (directionRef s)
              (queuedDirectionRef s) (gameOver s) (level s)
              (intervalDelay s) n (S (setFoodCalls s)) calls
  end.

(** The effect on [score, level]. *)
Definition levelEffect (s : State) : State :=
  let newLevel := calculateLevel (score s) in
  if newLevel =? level s then s
  else setLevelAndDelay newLevel (calculateSpeed newLevel) s.

Definition handleKeyPress (key : Key) (s : State) : State :=
  let currentDirection := directionRef s in
  let newDirection :=
    match key with
    | ArrowUp => if Direction_eqb currentDirection DOWN then None else Some UP
    | ArrowDown => if Direction_eqb currentDirection UP then None else Some DOWN
    | ArrowLeft => if Direction_eqb currentDirection RIGHT then None else Some LEFT
    | ArrowRight => if Direction_eqb currentDirection LEFT then None else Some RIGHT
    | OtherKey => None
    end in
  match newDirection with
  | Some d => setQueued (Some d) s
  | None => s
  end.

(** The state of the first render: every useState initialiser, the food
    being one unconditional [generateRandomPosition()]. *)
Definition initialState (rng : Rng) (calls : nat) : State :=
  let '(p, calls') := generateRandomPosition rng calls in
  mkState INITIAL_SNAKE p INITIAL_DIRECTION INITIAL_DIRECTION None false
          1 BASE_SPEED 0%nat 0%nat calls'.

(** What the environment can do to the component.  The Play Again button
    is rendered only under [gameOver]; the level effect runs after every
    render that changed [score] or [level], that is after every event. *)
Inductive Event : Type :=
| Tick
| Press (key : Key)
| PlayAgain
| Deferred.

Definition step (rng : Rng) (e : Event) (s : State) : State :=
  levelEffect
    match e with
    | Tick => moveSnake rng s
    | Press key => handleKeyPress key s
    | PlayAgain => if gameOver s then resetGame rng s else s
    | Deferred => runTimeout rng s
    end.

Definition run (rng : Rng) (events : list Event) (s : State) : State :=
  fold_left (fun st e => step rng e st) events s.

Definition reachable (s : State) : Prop :=
  exists rng events,
    rng_ok rng /\ s = run rng events (initialState rng 0%nat).

(** Views of a state in the vocabulary of the specification. *)

(** The direction the next tick moves in: the queued one if any. *)
Definition committedDirection (s : State) : Direction :=
  match queuedDirectionRef s with
  | Some d => d
  | None => directionRef s
  end.

Definition candidateHead (s : State) : option Position :=
  match snake s with
  | [] => None
  | head0 :: _ => Some (advance (committedDirection s) head0)
  end.

Definition bodyToCheck (s : State) (head : Position) : list Position :=
  if Position.eqb head (food s) then snake s else removelast (snake s).

(** The data-model invariant of the entity. *)
Definition wellFormed (s : State) : Prop :=
  snake s <> [] /\ NoDup (snake s) /\ Forall inGrid (snake s).

End Game.

(** ** The first component of src/App.tsx *)

Module AppTsx.

Record State : Type := mkState {
  snake : list Position;
  food : Position;
  direction : Direction;
  gameOver : bool;
  level : Z;
  intervalDelay : Z;
  randomCalls : nat
}.

(** checkCollision takes the position only: the segments it tests are
    the [snake] of the enclosing render. *)
Definition checkCollision (snake : list Position) (pos : Position) : bool :=
  outOfGrid pos || occupies snake pos.

(** [while (newSnake.some(...)) newFood = generateRandomPosition();]
    has no bound in this copy; [fuel] bounds the iterations of the
    model and [None] means that the fuel did not suffice. *)
Fixpoint retryFood (rng : Rng) (fuel : nat) (segments : list Position)
         (newFood : Position) (calls : nat) : option (Position * nat) :=
  if occupies segments newFood then
    match fuel with
    | O => None
    | S fuel' =>
        let '(p, calls') := generateRandomPosition rng calls in
        retryFood rng fuel' segments p calls'
    end
  else Some (newFood, calls).

Definition moveSnake (rng : Rng) (fuel : nat) (s : State) : option State :=
  if gameOver s then Some s
  else
    let prevSnake := snake s in
    match prevSnake with
    | [] => Some s
    | head0 :: _ =>
        let head := advance (direction s) head0 in
        if checkCollision (snake s) head then
          Some (mkState (snake s) (food s) (direction s) true (level s)
                        (intervalDelay s) (randomCalls s))
        else
          let newSnake := head :: prevSnake in
          if Position.eqb head (food s) then
            let '(p, calls) := generateRandomPosition rng (randomCalls s) in
            match retryFood rng fuel newSnake p calls with
            | Some (newFood, calls') =>
                Some (mkState newSnake newFood (direction s) (gameOver s)
                              (level s) (intervalDelay s) calls')
            | None => None
            end
          else
            Some (mkState (removelast newSnake) (food s) (direction s)
                          (gameOver s) (level s) (intervalDelay s)
                          (randomCalls s))
    end.

Definition score (s : State) : Z := Z.of_nat (length (snake s)) - 1.

Definition levelEffect (s : State) : State :=
  let newLevel := calculateLevel (score s) in
  if newLevel =? level s then s
  else mkState (snake s) (food s) (direction s) (gameOver s) newLevel
               (calculateSpeed newLevel) (randomCalls s).

Definition setDirection (d : Direction) (s : State) : State :=
  mkState (snake s) (food s) d (gameOver s) (level s) (intervalDelay s)
          (randomCalls s).

Definition handleKeyPress (key : Key) (s : State) : State :=
  match key with
  | ArrowUp => if Direction_eqb (direction s) DOWN then s else setDirection UP s
  | ArrowDown => if Direction_eqb (direction s) UP then s else setDirection DOWN s
  | ArrowLeft => if Direction_eqb (direction s) RIGHT then s else setDirection LEFT s
  | ArrowRight => if Direction_eqb (direction s) LEFT then s else setDirection RIGHT s
  | OtherKey => s
  end.

Definition initialState (rng : Rng) (calls : nat) : State :=
  let '(p, calls') := generateRandomPosition rng calls in
  mkState INITIAL_SNAKE p INITIAL_DIRECTION false 1 BASE_SPEED calls'.

Inductive Event : Type :=
| Tick
| Press (key : Key).

Definition step (rng : Rng) (fuel : nat) (e : Event) (s : State) : option State :=
  match e with
  | Tick => option_map levelEffect (moveSnake rng fuel s)
  | Press key => Some (levelEffect (handleKeyPress key s))
  end.

Fixpoint run (rng : Rng) (fuel : nat) (events : list Event) (s : State)
  : option State :=
  match events with
  | [] => Some s
  | e :: events' =>
      match step rng fuel e s with
      | Some s' => run rng fuel events' s'
      | None => None
      end
  end.

End AppTsx.

(** The three ways a tick of a running game ends. *)
Inductive TickCase (rng : Rng) (s : Game.State) (h : Position) : Game.State -> Prop :=
| TickFatal :
    Game.checkCollision h (Game.bodyToCheck s h) = true ->
    TickCase rng s h (Game.setGameOver true (Game.consumeQueued s))
| TickEat newFood attempts calls :
    Game.checkCollision h (Game.bodyToCheck s h) = false ->
    h = Game.food s ->
    Game.placeFood rng (h :: Game.snake s) (Game.randomCalls s)
      = (newFood, attempts, calls) ->
    TickCase rng s h
      (Game.setSnake (h :: Game.snake s)
         (Game.setFood newFood (Game.setRandomCalls calls (Game.consumeQueued s))))
| TickMove :
    Game.checkCollision h (Game.bodyToCheck s h) = false ->
    h <> Game.food s ->
    TickCase rng s h
      (Game.setSnake (h :: removelast (Game.snake s)) (Game.consumeQueued s)).

(** Every draw from call number [calls] on lands on [segments]. *)
Definition hitsFrom (rng : Rng) (segments : list Position) (calls : nat) : Prop :=
  forall j, occupies segments << rng (calls + 2 * j)%nat, rng (S (calls + 2 * j)) >> = true.

(** ** Concrete games *)

(** An oracle that returns the listed values, then [x] on even calls and
    [y] on odd ones: after the list, every drawn position is [(x, y)]. *)
Definition rngThen (l : list Z) (x y : Z) : Rng :=
  fun k => if (k <? length l)%nat then nth k l 0
           else if Nat.even k then x else y.

(** A running state of [Game] with nothing pending. *)
Definition playing (snake : list Position) (food : Position)
           (d : Direction) (queued : option Direction) : Game.State :=
  Game.mkState snake food d d queued false 1 BASE_SPEED 0%nat 0%nat 0%nat.

(** A four-cell entity coiled in a square, about to turn UP into the cell
    its tail leaves; the food is elsewhere. *)
Definition coil : list Position :=
  [ << 17, 16 >>; << 18, 16 >>; << 18, 15 >>; << 17, 15 >> ].

Definition coilGame : Game.State := playing coil << 5, 5 >> LEFT (Some UP).

Definition coilApp : AppTsx.State :=
  AppTsx.mkState coil << 5, 5 >> UP false 1 BASE_SPEED 8%nat.

(** How [coilApp] arises in src/App.tsx: three meals in a row, then DOWN,
    LEFT and the key UP. *)
Definition coilRng : Rng := rngThen [16; 15; 17; 15; 18; 15; 5; 5] 0 0.

Definition coilEvents : list AppTsx.Event :=
  [ AppTsx.Tick; AppTsx.Tick; AppTsx.Tick;
    AppTsx.Press ArrowDown; AppTsx.Tick;
    AppTsx.Press ArrowLeft; AppTsx.Tick;
    AppTsx.Press ArrowUp ].

(** A one-cell entity at the right border, moving RIGHT. *)
Definition atBorder : Game.State := playing [ << 29, 15 >> ] << 5, 5 >> RIGHT None.

(** A one-cell entity in the middle of the grid, moving RIGHT. *)
Definition atCentre : Game.State := playing INITIAL_SNAKE << 5, 5 >> RIGHT None.

(** A finished game. *)
Definition finished : Game.State :=
  Game.setGameOver true atBorder.

(** Every draw is (16, 15): the first food lies right of the start cell
    and every later draw lands on the grown entity. *)
Definition stuckRng : Rng := rngThen [] 16 15.

(** The first food lies right of the start cell, the second at (20, 20). *)
Definition mealRng : Rng := rngThen [16; 15; 20; 20] 0 0.

Definition stuckStart : Game.State := Game.initialState stuckRng 0%nat.
Definition stuckAfter1 : Game.State := Game.run stuckRng [Game.Tick] stuckStart.
Definition stuckAfter2 : Game.State :=
  Game.run stuckRng [Game.Tick; Game.Tick] stuckStart.

(** Every draw is the start cell (15, 15). *)
Definition centreRng : Rng := rngThen [] 15 15.

(** Three meals, the third of which exhausts the retries on the head
    cell (18, 15); then a turn around a square back to that cell. *)
Definition biteRng : Rng := rngThen [16; 15; 17; 15] 18 15.

Definition biteEvents : list Game.Event :=
  [ Game.Tick; Game.Tick; Game.Tick;
    Game.Press ArrowDown; Game.Tick;
    Game.Press ArrowLeft; Game.Tick;
    Game.Press ArrowUp; Game.Tick;
    Game.Press ArrowRight ].

Definition biteState : Game.State :=
  Game.run biteRng biteEvents (Game.initialState biteRng 0%nat).

(** ** Paths, the whole grid and the rendered board *)

(** Two cells are neighbours when one is the other moved by one step. *)
Definition adjacent (a b : Position) : Prop := exists d, a = advance d b.

(** Every cell of the list is a neighbour of the next one. *)
Fixpoint connected (l : list Position) : Prop :=
  match l with
  | a :: tl =>
      match tl with
      | b :: _ => adjacent a b /\ connected tl
      | [] => True
      end
  | [] => True
  end.

(** What the key handler and the tick keep true between them: the
    buffered direction is never the reverse of the committed one, and
    while the game runs the head is the second cell moved in the committed
    direction. *)
Definition steady (s : Game.State) : Prop :=
  (forall q, Game.queuedDirectionRef s = Some q ->
             q <> opposite (Game.directionRef s))
  /\ (Game.gameOver s = false ->
      forall h n rest, Game.snake s = h :: n :: rest ->
                       h = advance (Game.directionRef s) n).

(** The level and the delay agree with the score. *)
Definition levelled (s : Game.State) : Prop :=
  Game.level s = calculateLevel (Game.score s)
  /\ Game.intervalDelay s = calculateSpeed (Game.level s).

(** The food is on the grid, or it is the placeholder of resetGame and a
    re-roll is pending. *)
Definition foodPlaced (s : Game.State) : Prop :=
  inGrid (Game.food s)
  \/ (Game.food s = << -1, -1 >> /\ (0 < Game.timeouts s)%nat).

(** The cells of the grid, column by column. *)
Definition allCells : list Position :=
  flat_map
    (fun x => map (fun y => << Z.of_nat x, Z.of_nat y >>)
                  (seq 0 (Z.to_nat GRID_SIZE)))
    (seq 0 (Z.to_nat GRID_SIZE)).

(** The board and the squares drawn on it: SnakeSegment and Food are
    absolutely positioned at [x * CELL_SIZE], [y * CELL_SIZE] with side
    [CELL_SIZE], inside a container of [BOARD_WIDTH] by [BOARD_HEIGHT]
    pixels that hides what overflows. *)
Definition CELL_SIZE : Z := 25.
Definition BOARD_WIDTH : Z := GRID_SIZE * CELL_SIZE.
Definition BOARD_HEIGHT : Z := GRID_SIZE * CELL_SIZE.

Record Box : Type := mkBox { left : Z; top : Z; width : Z; height : Z }.

Definition cellBox (p : Position) : Box :=
  mkBox (Position.x p * CELL_SIZE) (Position.y p * CELL_SIZE) CELL_SIZE CELL_SIZE.

Definition insideBoard (b : Box) : Prop :=
  0 <= left b /\ left b + width b <= BOARD_WIDTH
  /\ 0 <= top b /\ top b + height b <= BOARD_HEIGHT.

(** No pixel of the box is on the board. *)
Definition offBoard (b : Box) : Prop :=
  left b + width b <= 0 \/ BOARD_WIDTH <= left b
  \/ top b + height b <= 0 \/ BOARD_HEIGHT <= top b.

(** The two boxes share no pixel. *)
Definition disjointBoxes (a b : Box) : Prop :=
  left a + width a <= left b \/ left b + width b <= left a
  \/ top a + height a <= top b \/ top b + height b <= top a.

(** The player of src/App.tsx two cells long, moving RIGHT. *)
Definition twoCellsApp : AppTsx.State :=
  AppTsx.mkState [ << 16, 15 >>; << 15, 15 >> ] << 5, 5 >> RIGHT false 1
                 BASE_SPEED 2%nat.

(** Boolean tests of the two list properties, to check concrete
    entities by evaluation. *)
Fixpoint distinctb (l : list Position) : bool :=
  match l with
  | [] => true
  | a :: tl => negb (occupies tl a) && distinctb tl
  end.

Definition adjacentb (a b : Position) : bool :=
  existsb (fun d => Position.eqb a (advance d b)) [UP; DOWN; LEFT; RIGHT].

Fixpoint connectedb (l : list Position) : bool :=
  match l with
  | a :: tl =>
      match tl with
      | b :: _ => adjacentb a b && connectedb tl
      | [] => true
      end
  | [] => true
  end.

(** A path through every cell of the grid but (1, 0): down the first
    column from (0, 0), up and down the other columns between rows 1 and
    29, and back along row 0 from (29, 0) to (2, 0). *)
Definition wonPath : list Position :=
  map (fun y => << 0, Z.of_nat y >>) (seq 0 30)
  ++ flat_map
       (fun x => map (fun y => << Z.of_nat x, Z.of_nat y >>)
                     (if Nat.odd x then rev (seq 1 29) else seq 1 29))
       (seq 1 29)
  ++ map (fun x => << Z.of_nat x, 0 >>) (rev (seq 2 28)).

(** The won game of src/App.tsx: the entity lies on that path, the food is
    on the last free cell (1, 0) and the head at (0, 0) moves RIGHT. *)
Definition fullApp : AppTsx.State :=
  AppTsx.mkState wonPath << 1, 0 >> RIGHT false 10 65 2%nat.

(** * Properties *)

(** ** Positions, membership and the grid *)

Lemma Position_eqb_eq (a b : Position) : Position.eqb a b = true <-> a = b.
Proof.
  destruct a as [ax ay], b as [bx b_y]; unfold Position.eqb; simpl.
  rewrite andb_true_iff, !Z.eqb_eq.
  split; [intros [-> ->]; reflexivity | intros H; inversion H; auto].
Qed.

Lemma Position_eqb_neq (a b : Position) : Position.eqb a b = false <-> a <> b.
Proof.
  rewrite <- Position_eqb_eq. destruct (Position.eqb a b); split; congruence.
Qed.

Lemma Position_eqb_refl (a : Position) : Position.eqb a a = true.
Proof. apply Position_eqb_eq; reflexivity. Qed.

Lemma occupies_In (segments : list Position) (pos : Position) :
  occupies segments pos = true <-> In pos segments.
Proof.
  unfold occupies. rewrite existsb_exists. split.
  - intros (q & Hq & E). apply Position_eqb_eq in E. subst; assumption.
  - intros H. exists pos. split; [assumption | apply Position_eqb_refl].
Qed.

Lemma occupies_not_In (segments : list Position) (pos : Position) :
  occupies segments pos = false <-> ~ In pos segments.
Proof.
  rewrite <- occupies_In. destruct (occupies segments pos); split; congruence.
Qed.

Lemma outOfGrid_false (pos : Position) : outOfGrid pos = false <-> inGrid pos.
Proof.
  unfold outOfGrid, inGrid, GRID_SIZE.
  rewrite !orb_false_iff, !Z.ltb_ge, !Z.geb_leb, !Z.leb_gt. lia.
Qed.

Lemma outOfGrid_true (pos : Position) : outOfGrid pos = true <-> ~ inGrid pos.
Proof.
  rewrite <- outOfGrid_false. destruct (outOfGrid pos); split; congruence.
Qed.

Lemma classify_checkCollision (head : Position) (body : list Position) :
  Game.checkCollision head body = true <-> classify head body <> FREE.
Proof.
  unfold Game.checkCollision, classify.
  destruct (outOfGrid head); simpl; [split; [discriminate | reflexivity] |].
  destruct (occupies body head); split; congruence.
Qed.

Lemma classify_FREE (head : Position) (body : list Position) :
  classify head body = FREE <-> inGrid head /\ ~ In head body.
Proof.
  unfold classify. rewrite <- outOfGrid_false, <- occupies_not_In.
  destruct (outOfGrid head); [split; [discriminate | intros [? _]; discriminate] |].
  destruct (occupies body head); split; try discriminate; auto.
  intros [_ ?]; discriminate.
Qed.

(** Closed goals about concrete games are settled by evaluation. *)
Ltac by_evaluation :=
  repeat match goal with |- _ /\ _ => split end;
  try match goal with
      | |- In ?p ?l => apply (proj1 (occupies_In l p))
      end;
  try (vm_compute; reflexivity).

(** ** Lists: the tail cell and what remains without it *)

Lemma removelast_length {A} (l : list A) :
  length (removelast l) = Nat.pred (length l).
Proof.
  induction l as [| a l IH]; [reflexivity |].
  destruct l as [| b l]; [reflexivity |].
  change (removelast (a :: b :: l)) with (a :: removelast (b :: l)).
  change (S (length (removelast (b :: l))) = length (b :: l)).
  rewrite IH. reflexivity.
Qed.

Lemma In_removelast {A} (l : list A) (a : A) : In a (removelast l) -> In a l.
Proof.
  induction l as [| b l IH]; [intros [] |].
  destruct l as [| c l]; [intros [] |].
  change (removelast (b :: c :: l)) with (b :: removelast (c :: l)).
  intros [H | H]; [left; exact H | right; apply IH, H].
Qed.

Lemma NoDup_removelast {A} (l : list A) : NoDup l -> NoDup (removelast l).
Proof.
  induction l as [| b l IH]; [intros _; constructor |].
  destruct l as [| c l]; [intros _; constructor |].
  change (removelast (b :: c :: l)) with (b :: removelast (c :: l)).
  intros H. inversion H as [| ? ? Hb Hl]; subst.
  constructor; [| apply IH; assumption].
  intros Hin. apply Hb. apply (In_removelast (c :: l)). exact Hin.
Qed.

Lemma Forall_removelast {A} (P : A -> Prop) (l : list A) :
  Forall P l -> Forall P (removelast l).
Proof.
  intros H. apply Forall_forall. intros a Ha.
  rewrite Forall_forall in H. apply H, In_removelast, Ha.
Qed.

Lemma last_not_In_removelast {A} (l : list A) (d : A) :
  l <> [] -> NoDup l -> ~ In (last l d) (removelast l).
Proof.
  intros Hne Hnd.
  pose proof (app_removelast_last d Hne) as E.
  rewrite E in Hnd at 1.
  apply NoDup_remove_2 in Hnd. rewrite app_nil_r in Hnd. exact Hnd.
Qed.

Lemma last_In {A} (l : list A) (d : A) : l <> [] -> In (last l d) l.
Proof.
  intros Hne. rewrite (app_removelast_last d Hne) at 2.
  apply in_or_app. right. left. reflexivity.
Qed.

(** ** moveSnake, case by case *)

Section MoveSnake.

Variable rng : Rng.

Lemma consumeQueued_snake s : Game.snake (Game.consumeQueued s) = Game.snake s.
Proof. unfold Game.consumeQueued. destruct (Game.queuedDirectionRef s); reflexivity. Qed.

Lemma consumeQueued_food s : Game.food (Game.consumeQueued s) = Game.food s.
Proof. unfold Game.consumeQueued. destruct (Game.queuedDirectionRef s); reflexivity. Qed.

Lemma consumeQueued_directionRef s :
  Game.directionRef (Game.consumeQueued s) = Game.committedDirection s.
Proof.
  unfold Game.consumeQueued, Game.committedDirection.
  destruct (Game.queuedDirectionRef s); reflexivity.
Qed.

Lemma consumeQueued_gameOver s :
  Game.gameOver (Game.consumeQueued s) = Game.gameOver s.
Proof. unfold Game.consumeQueued. destruct (Game.queuedDirectionRef s); reflexivity. Qed.

Lemma consumeQueued_setFoodCalls s :
  Game.setFoodCalls (Game.consumeQueued s) = Game.setFoodCalls s.
Proof. unfold Game.consumeQueued. destruct (Game.queuedDirectionRef s); reflexivity. Qed.


Lemma consumeQueued_randomCalls s :
  Game.randomCalls (Game.consumeQueued s) = Game.randomCalls s.
Proof. unfold Game.consumeQueued. destruct (Game.queuedDirectionRef s); reflexivity. Qed.

Lemma candidateHead_Some s h :
  Game.candidateHead s = Some h ->
  exists head0 rest,
    Game.snake s = head0 :: rest /\ h = advance (Game.committedDirection s) head0.
Proof.
  unfold Game.candidateHead. destruct (Game.snake s) as [| head0 rest]; [discriminate |].
  intros E. injection E as <-. eauto.
Qed.

Lemma moveSnake_cases s h :
  Game.gameOver s = false ->
  Game.candidateHead s = Some h ->
  TickCase rng s h (Game.moveSnake rng s).
Proof.
  intros Hrun Hh.
  destruct (candidateHead_Some _ _ Hh) as (head0 & rest & Hs & ->).
  unfold Game.moveSnake. rewrite Hrun.
  cbv zeta.
  rewrite consumeQueued_snake, consumeQueued_food, consumeQueued_directionRef,
    consumeQueued_randomCalls, Hs.
  set (h := advance (Game.committedDirection s) head0).
  assert (Hbody : (if Position.eqb h (Game.food s)
                   then head0 :: rest else removelast (head0 :: rest))
                  = Game.bodyToCheck s h)
    by (unfold Game.bodyToCheck; rewrite Hs; reflexivity).
  rewrite Hbody.
  destruct (Game.checkCollision h (Game.bodyToCheck s h)) eqn:Hc.
  - apply TickFatal. exact Hc.
  - destruct (Position.eqb h (Game.food s)) eqn:He.
    + apply Position_eqb_eq in He.
      destruct (Game.placeFood rng (h :: head0 :: rest) (Game.randomCalls s))
        as [[newFood attempts] calls] eqn:Hp.
      rewrite <- Hs. rewrite <- Hs in Hp.
      apply (TickEat rng s h newFood attempts calls Hc He Hp).
    + apply Position_eqb_neq in He.
      change (removelast (h :: head0 :: rest)) with (h :: removelast (head0 :: rest)).
      rewrite <- Hs. apply TickMove; assumption.
Qed.

End MoveSnake.

(** ** A tick of a finished game *)

Lemma moveSnake_gameOver (rng : Rng) (s : Game.State) :
  Game.gameOver s = true -> Game.moveSnake rng s = s.
Proof.
  intros Hover. unfold Game.moveSnake. rewrite Hover. reflexivity.
Qed.

(** C9: when the game-over flag is set, moveSnake returns at its first
    line: the state it yields is the state it was given, in every
    component (entity, food, both directions, the queued direction, level,
    interval, flag), no timeout is scheduled and no random number is drawn.
    The function is total, so the call cannot fail. *)
Theorem tick_when_over_is_noop (rng : Rng) (s : Game.State) :
  Game.gameOver s = true -> Game.moveSnake rng s = s.
Proof.
  exact (moveSnake_gameOver rng s).
Qed.

Lemma tick_when_over_is_noop_witness :
  Game.gameOver finished = true /\ Game.moveSnake stuckRng finished = finished.
Proof.
  split; [reflexivity | apply (tick_when_over_is_noop stuckRng finished); reflexivity].
Defined.

(** ** Fatal moves *)

(** C2: in a running state, when the candidate head (the head moved one
    cell in the direction this tick commits) is classified WALL or SELF
    against the body moveSnake checks, the tick sets the game-over flag and
    the entity is the one before the move; the food is not touched
    either. *)
Theorem fatal_move_not_applied (rng : Rng) (s : Game.State) (h : Position) :
  Game.gameOver s = false ->
  Game.candidateHead s = Some h ->
  classify h (Game.bodyToCheck s h) = WALL
  \/ classify h (Game.bodyToCheck s h) = SELF ->
  Game.gameOver (Game.moveSnake rng s) = true
  /\ Game.snake (Game.moveSnake rng s) = Game.snake s
  /\ Game.food (Game.moveSnake rng s) = Game.food s
  /\ Game.setFoodCalls (Game.moveSnake rng s) = Game.setFoodCalls s.
Proof.
  intros Hrun Hh Hfatal.
  assert (Hc : Game.checkCollision h (Game.bodyToCheck s h) = true)
    by (apply classify_checkCollision; destruct Hfatal as [E | E]; rewrite E; discriminate).
  destruct (moveSnake_cases rng s h Hrun Hh) as [_ | ? ? ? Hc' | Hc']; try congruence.
  simpl. rewrite consumeQueued_snake, consumeQueued_food, consumeQueued_setFoodCalls.
  repeat split; reflexivity.
Qed.

Lemma fatal_move_not_applied_witness :
  Game.gameOver (Game.moveSnake stuckRng atBorder) = true
  /\ Game.snake (Game.moveSnake stuckRng atBorder) = Game.snake atBorder
  /\ Game.food (Game.moveSnake stuckRng atBorder) = Game.food atBorder
  /\ Game.setFoodCalls (Game.moveSnake stuckRng atBorder) = Game.setFoodCalls atBorder.
Proof.
  apply (fatal_move_not_applied stuckRng atBorder << 30, 15 >>).
  - reflexivity.
  - reflexivity.
  - left. reflexivity.
Defined.

(** ** A single cell cannot hit itself *)

Lemma advance_neq (d : Direction) (p : Position) : advance d p <> p.
Proof.
  destruct p as [a b], d; simpl; intros E; inversion E; lia.
Qed.

(** C10: for an entity of exactly one cell, the body handed to
    checkCollision on a tick that does not eat is empty; the outcome is
    never SELF (when the tick eats, the one cell checked is the cell the
    head has just left), and the tick ends the game exactly when the
    candidate head lies outside the grid. *)
Theorem single_cell_only_wall (rng : Rng) (s : Game.State) (p h : Position) :
  Game.gameOver s = false ->
  Game.snake s = [p] ->
  Game.candidateHead s = Some h ->
  (h <> Game.food s -> Game.bodyToCheck s h = [])
  /\ classify h (Game.bodyToCheck s h) <> SELF
  /\ (Game.gameOver (Game.moveSnake rng s) = true <-> ~ inGrid h).
Proof.
  intros Hrun Hs Hh.
  assert (Hocc : occupies (Game.bodyToCheck s h) h = false).
  { apply occupies_not_In. unfold Game.bodyToCheck. rewrite Hs.
    destruct (candidateHead_Some _ _ Hh) as (head0 & rest & Hs' & ->).
    rewrite Hs in Hs'. injection Hs' as <- <-.
    destruct (Position.eqb _ _); simpl; [| tauto].
    intros [E | []]. symmetry in E. exact (advance_neq _ _ E). }
  split; [| split].
  - intros Hfood. unfold Game.bodyToCheck. apply Position_eqb_neq in Hfood.
    rewrite Hfood, Hs. reflexivity.
  - unfold classify. rewrite Hocc. destruct (outOfGrid h); discriminate.
  - rewrite <- outOfGrid_true.
    destruct (moveSnake_cases rng s h Hrun Hh) as [Hc | ? ? ? Hc _ _ | Hc _];
      unfold Game.checkCollision in Hc; rewrite Hocc, orb_false_r in Hc;
      simpl; rewrite ?consumeQueued_gameOver, ?Hrun, Hc;
      split; auto; discriminate.
Qed.

Lemma single_cell_only_wall_witness :
  Game.bodyToCheck atBorder << 30, 15 >> = []
  /\ classify << 30, 15 >> (Game.bodyToCheck atBorder << 30, 15 >>) <> SELF
  /\ (Game.gameOver (Game.moveSnake stuckRng atBorder) = true <-> ~ inGrid << 30, 15 >>).
Proof.
  destruct (single_cell_only_wall stuckRng atBorder << 29, 15 >> << 30, 15 >>)
    as (Hbody & Hself & Hover); [reflexivity | reflexivity | reflexivity |].
  split; [apply Hbody; discriminate | split; [exact Hself | exact Hover]].
Defined.

(** ** Reversal *)

Lemma setQueued_same (s : Game.State) :
  Game.setQueued (Game.queuedDirectionRef s) s = s.
Proof. destruct s; reflexivity. Qed.

Lemma moveSnake_directionRef_no_queue (rng : Rng) (s : Game.State) :
  Game.queuedDirectionRef s = None ->
  Game.directionRef (Game.moveSnake rng s) = Game.directionRef s
  /\ Game.direction (Game.moveSnake rng s) = Game.direction s
  /\ Game.queuedDirectionRef (Game.moveSnake rng s) = None.
Proof.
  intros Hq. unfold Game.moveSnake.
  destruct (Game.gameOver s); [auto |].
  unfold Game.consumeQueued. rewrite Hq. cbv zeta.
  destruct (Game.snake s) as [| head0 rest]; [auto |].
  destruct (Game.checkCollision _ _); [auto |].
  destruct (Position.eqb _ _); [| auto].
  destruct (Game.placeFood _ _ _) as [[newFood attempts] calls]. auto.
Qed.

(** C3: with committed direction d, the key of the direction opposite to
    d changes nothing: handleKeyPress returns the state it was given, so
    nothing is buffered.  When no earlier key is waiting in the buffer, the
    committed direction (the ref and the React state) after the next tick
    is still d. *)
Theorem reversal_dropped (rng : Rng) (s : Game.State) (d : Direction) :
  Game.directionRef s = d ->
  Game.handleKeyPress (keyOf (opposite d)) s = s
  /\ (Game.queuedDirectionRef s = None ->
      Game.directionRef (Game.moveSnake rng (Game.handleKeyPress (keyOf (opposite d)) s)) = d
      /\ Game.direction (Game.moveSnake rng (Game.handleKeyPress (keyOf (opposite d)) s))
         = Game.direction s
      /\ Game.queuedDirectionRef
           (Game.moveSnake rng (Game.handleKeyPress (keyOf (opposite d)) s)) = None).
Proof.
  intros Hd.
  assert (Hdrop : Game.handleKeyPress (keyOf (opposite d)) s = s)
    by (unfold Game.handleKeyPress; rewrite Hd; destruct d; reflexivity).
  split; [exact Hdrop |].
  intros Hq. rewrite Hdrop, <- Hd.
  apply moveSnake_directionRef_no_queue. exact Hq.
Qed.

Lemma reversal_dropped_witness :
  Game.handleKeyPress (keyOf (opposite RIGHT)) atCentre = atCentre
  /\ Game.directionRef
       (Game.moveSnake stuckRng (Game.handleKeyPress (keyOf (opposite RIGHT)) atCentre))
     = RIGHT
  /\ Game.direction
       (Game.moveSnake stuckRng (Game.handleKeyPress (keyOf (opposite RIGHT)) atCentre))
     = Game.direction atCentre
  /\ Game.queuedDirectionRef
       (Game.moveSnake stuckRng (Game.handleKeyPress (keyOf (opposite RIGHT)) atCentre))
     = None.
Proof.
  destruct (reversal_dropped stuckRng atCentre RIGHT) as [Hdrop Htick];
    [reflexivity |].
  split; [exact Hdrop | apply Htick; reflexivity].
Defined.

(** ** The difficulty curve *)

(** C7: calculateLevel is the level formula of the specification at
    maxLevel = 10 and scorePerLevel = 5; on scores from 0 upwards it does
    not decrease, is at least 1 and never exceeds MAX_LEVEL.
    calculateSpeed is the interval formula at minInterval = 50,
    baseInterval = 200 and decrement = 15; on levels from 1 upwards it does
    not increase and never drops below 50. *)
Theorem difficulty_curve (s1 s2 l1 l2 : Z) :
  0 <= s1 <= s2 ->
  1 <= l1 <= l2 ->
  calculateLevel s1 = levelFor_spec MAX_LEVEL SCORE_PER_LEVEL s1
  /\ calculateLevel s1 <= calculateLevel s2
  /\ 1 <= calculateLevel s1 <= MAX_LEVEL
  /\ calculateSpeed l1 = intervalFor_spec 50 BASE_SPEED SPEED_DECREMENT l1
  /\ calculateSpeed l2 <= calculateSpeed l1
  /\ 50 <= calculateSpeed l1 <= BASE_SPEED.
Proof.
  intros Hs Hl.
  unfold calculateLevel, calculateSpeed, levelFor_spec, intervalFor_spec,
    MAX_LEVEL, SCORE_PER_LEVEL, BASE_SPEED, SPEED_DECREMENT.
  assert (H12 : s1 / 5 <= s2 / 5) by (apply Z.div_le_mono; lia).
  assert (H0 : 0 <= s1 / 5) by (apply Z.div_pos; lia).
  repeat split; lia.
Qed.

Lemma difficulty_curve_witness :
  calculateLevel 7 = levelFor_spec MAX_LEVEL SCORE_PER_LEVEL 7
  /\ calculateLevel 7 <= calculateLevel 60
  /\ 1 <= calculateLevel 7 <= MAX_LEVEL
  /\ calculateSpeed 2 = intervalFor_spec 50 BASE_SPEED SPEED_DECREMENT 2
  /\ calculateSpeed 12 <= calculateSpeed 2
  /\ 50 <= calculateSpeed 2 <= BASE_SPEED.
Proof.
  apply (difficulty_curve 7 60 2 12); lia.
Defined.

(** ** The entity stays well formed *)

Lemma bodyToCheck_eating (s : Game.State) (h : Position) :
  h = Game.food s -> Game.bodyToCheck s h = Game.snake s.
Proof.
  intros E. unfold Game.bodyToCheck.
  apply Position_eqb_eq in E. rewrite E. reflexivity.
Qed.

Lemma bodyToCheck_moving (s : Game.State) (h : Position) :
  h <> Game.food s -> Game.bodyToCheck s h = removelast (Game.snake s).
Proof.
  intros E. unfold Game.bodyToCheck.
  apply Position_eqb_neq in E. rewrite E. reflexivity.
Qed.

Lemma checkCollision_false (h : Position) (body : list Position) :
  Game.checkCollision h body = false <-> inGrid h /\ ~ In h body.
Proof.
  unfold Game.checkCollision.
  rewrite orb_false_iff, outOfGrid_false, occupies_not_In. tauto.
Qed.

Lemma candidateHead_wellFormed (s : Game.State) :
  Game.wellFormed s -> exists h, Game.candidateHead s = Some h.
Proof.
  intros (Hne & _). unfold Game.candidateHead.
  destruct (Game.snake s); [contradiction | eauto].
Qed.

Lemma moveSnake_wellFormed (rng : Rng) (s : Game.State) :
  Game.wellFormed s -> Game.wellFormed (Game.moveSnake rng s).
Proof.
  intros Hwf.
  destruct (Game.gameOver s) eqn:Hrun.
  { rewrite moveSnake_gameOver by exact Hrun. exact Hwf. }
  destruct (candidateHead_wellFormed s Hwf) as [h Hh].
  destruct Hwf as (Hne & Hnd & Hin).
  destruct (moveSnake_cases rng s h Hrun Hh) as [_ | nf a c Hc He _ | Hc He];
    unfold Game.wellFormed; simpl; rewrite ?consumeQueued_snake.
  - auto.
  - rewrite (bodyToCheck_eating s h He) in Hc.
    apply checkCollision_false in Hc. destruct Hc as [Hg Hfresh].
    split; [discriminate |]. split; constructor; assumption.
  - rewrite (bodyToCheck_moving s h He) in Hc.
    apply checkCollision_false in Hc. destruct Hc as [Hg Hfresh].
    split; [discriminate |]. split; constructor;
      auto using NoDup_removelast, Forall_removelast.
Qed.

Lemma INITIAL_SNAKE_wellFormed :
  INITIAL_SNAKE <> [] /\ NoDup INITIAL_SNAKE /\ Forall inGrid INITIAL_SNAKE.
Proof.
  split; [discriminate |]. split.
  - repeat constructor. simpl. tauto.
  - repeat constructor; vm_compute; discriminate.
Qed.

Lemma step_wellFormed (rng : Rng) (e : Game.Event) (s : Game.State) :
  Game.wellFormed s -> Game.wellFormed (Game.step rng e s).
Proof.
  intros Hwf. unfold Game.step.
  assert (Hlevel : forall t, Game.wellFormed t -> Game.wellFormed (Game.levelEffect t)).
  { intros t Ht. unfold Game.levelEffect. destruct (_ =? _); exact Ht. }
  apply Hlevel. destruct e as [| key | |].
  - apply moveSnake_wellFormed, Hwf.
  - unfold Game.handleKeyPress.
    destruct key; repeat (destruct (Direction_eqb _ _)); exact Hwf.
  - destruct (Game.gameOver s); [| exact Hwf].
    unfold Game.resetGame.
    destruct (Game.placeFood _ _ _) as [[drawn attempts] calls].
    exact INITIAL_SNAKE_wellFormed.
  - unfold Game.runTimeout. destruct (Game.timeouts s); exact Hwf.
Qed.

Lemma run_wellFormed (rng : Rng) (events : list Game.Event) (s : Game.State) :
  Game.wellFormed s -> Game.wellFormed (Game.run rng events s).
Proof.
  revert s. unfold Game.run.
  induction events as [| e events IH]; intros s Hwf; simpl; [exact Hwf |].
  apply IH, step_wellFormed, Hwf.
Qed.

(** X1: Every state a game can reach holds a non-empty entity without
    duplicate cells, all of them on the grid. *)
Lemma reachable_wellFormed (s : Game.State) :
  Game.reachable s -> Game.wellFormed s.
Proof.
  intros (rng & events & _ & ->).
  apply run_wellFormed. exact INITIAL_SNAKE_wellFormed.
Qed.

(** ** Turning into the cell the tail leaves *)

(** X2: In the component with the queued direction the turn is free: on a
    tick that does not eat, a candidate head equal to the tail cell of a
    well-formed entity is classified FREE against the body without its
    tail, and the tick moves the entity. *)
Lemma tail_turn_is_free (rng : Rng) (s : Game.State) (h : Position) :
  Game.gameOver s = false ->
  Game.wellFormed s ->
  (2 <= length (Game.snake s))%nat ->
  Game.candidateHead s = Some h ->
  last (Game.snake s) h = h ->
  h <> Game.food s ->
  Game.bodyToCheck s h = removelast (Game.snake s)
  /\ classify h (Game.bodyToCheck s h) = FREE
  /\ Game.gameOver (Game.moveSnake rng s) = false
  /\ Game.snake (Game.moveSnake rng s) = h :: removelast (Game.snake s).
Proof.
  intros Hrun (Hne & Hnd & Hin) _ Hh Htail Hfood.
  assert (Hfree : inGrid h /\ ~ In h (Game.bodyToCheck s h)).
  { rewrite (bodyToCheck_moving s h Hfood). split.
    - rewrite Forall_forall in Hin. apply Hin.
      rewrite <- Htail. apply last_In, Hne.
    - rewrite <- Htail at 1. apply last_not_In_removelast; assumption. }
  split; [apply bodyToCheck_moving, Hfood |].
  split; [apply classify_FREE, Hfree |].
  apply checkCollision_false in Hfree.
  destruct (moveSnake_cases rng s h Hrun Hh) as [Hc | ? ? ? _ He _ | _ _];
    [congruence | contradiction |].
  simpl. rewrite consumeQueued_gameOver. auto.
Qed.

Lemma tail_turn_is_free_witness :
  Game.bodyToCheck coilGame << 17, 15 >> = removelast coil
  /\ classify << 17, 15 >> (Game.bodyToCheck coilGame << 17, 15 >>) = FREE
  /\ Game.gameOver (Game.moveSnake stuckRng coilGame) = false
  /\ Game.snake (Game.moveSnake stuckRng coilGame) = << 17, 15 >> :: removelast coil.
Proof.
  apply (tail_turn_is_free stuckRng coilGame << 17, 15 >>).
  - reflexivity.
  - split; [discriminate |]. split.
    + repeat constructor; simpl; intuition discriminate.
    + repeat constructor; vm_compute; discriminate.
  - simpl. lia.
  - reflexivity.
  - reflexivity.
  - discriminate.
Defined.

(** X19: In src/App.tsx every such turn is fatal: the tail cell is one of the
    cells of [snake], which checkCollision tests in full. *)
Lemma app_tail_turn_always_fatal (rng : Rng) (fuel : nat) (s : AppTsx.State)
      (head0 : Position) (rest : list Position) :
  AppTsx.gameOver s = false ->
  AppTsx.snake s = head0 :: rest ->
  advance (AppTsx.direction s) head0 = last (AppTsx.snake s) head0 ->
  AppTsx.moveSnake rng fuel s
  = Some (AppTsx.mkState (AppTsx.snake s) (AppTsx.food s) (AppTsx.direction s)
                         true (AppTsx.level s) (AppTsx.intervalDelay s)
                         (AppTsx.randomCalls s)).
Proof.
  intros Hrun Hs Htail.
  assert (Hin : In (advance (AppTsx.direction s) head0) (AppTsx.snake s)).
  { rewrite Htail. apply last_In. rewrite Hs. discriminate. }
  apply occupies_In in Hin.
  unfold AppTsx.moveSnake. rewrite Hrun. cbv zeta.
  rewrite Hs in *. unfold AppTsx.checkCollision.
  rewrite Hin, orb_true_r. reflexivity.
Qed.

(** C1: in src/App.tsx the same turn ends the game.  The coiled
    four-cell entity arises from the first render by three meals and two
    turns; its candidate head is the cell its tail leaves on this tick and
    is not the food; checkCollision tests it against the whole [snake],
    tail included, and moveSnake sets the game-over flag and keeps the
    entity, whatever the fuel of the food loop. *)
Theorem app_tail_turn_is_fatal :
  AppTsx.run coilRng 0 coilEvents (AppTsx.initialState coilRng 0%nat) = Some coilApp
  /\ advance (AppTsx.direction coilApp) << 17, 16 >> = last (AppTsx.snake coilApp) << 0, 0 >>
  /\ Position.eqb << 17, 15 >> (AppTsx.food coilApp) = false
  /\ AppTsx.checkCollision (AppTsx.snake coilApp) << 17, 15 >> = true
  /\ classify << 17, 15 >> (removelast (AppTsx.snake coilApp)) = FREE
  /\ forall fuel,
       AppTsx.moveSnake coilRng fuel coilApp
       = Some (AppTsx.mkState coil << 5, 5 >> UP true 1 BASE_SPEED 8%nat).
Proof.
  by_evaluation.
Qed.

(** ** Growth *)

(** C8, for ticks that succeed: in a running state, a tick that does not
    end the game and whose candidate head is the food cell puts the head in
    front of the whole previous entity (length plus one, tail in place) and
    calls setFood once; a tick that does not end the game and whose
    candidate head is not the food cell keeps the length, the food and the
    count of setFood calls. *)
Theorem growth_on_successful_tick (rng : Rng) (s : Game.State) (h : Position) :
  Game.gameOver s = false ->
  Game.candidateHead s = Some h ->
  Game.gameOver (Game.moveSnake rng s) = false ->
  (h = Game.food s ->
     Game.snake (Game.moveSnake rng s) = h :: Game.snake s
     /\ length (Game.snake (Game.moveSnake rng s)) = S (length (Game.snake s))
     /\ Game.setFoodCalls (Game.moveSnake rng s) = S (Game.setFoodCalls s)
     /\ Game.food (Game.moveSnake rng s)
        = fst (fst (Game.placeFood rng (h :: Game.snake s) (Game.randomCalls s))))
  /\ (h <> Game.food s ->
     Game.snake (Game.moveSnake rng s) = h :: removelast (Game.snake s)
     /\ length (Game.snake (Game.moveSnake rng s)) = length (Game.snake s)
     /\ Game.food (Game.moveSnake rng s) = Game.food s
     /\ Game.setFoodCalls (Game.moveSnake rng s) = Game.setFoodCalls s).
Proof.
  intros Hrun Hh Hok.
  destruct (candidateHead_Some _ _ Hh) as (head0 & rest & Hs & _).
  destruct (moveSnake_cases rng s h Hrun Hh) as [_ | nf a c _ He Hp | _ He].
  - simpl in Hok. discriminate.
  - split; [intros _ | intros Hn; contradiction].
    rewrite Hp. simpl. rewrite consumeQueued_setFoodCalls. auto.
  - split; [intros Hn; contradiction | intros _].
    simpl. rewrite consumeQueued_food, consumeQueued_setFoodCalls, removelast_length.
    rewrite Hs. simpl. auto.
Qed.

Lemma growth_on_successful_tick_witness :
  (Game.snake (Game.moveSnake mealRng (Game.initialState mealRng 0%nat))
     = << 16, 15 >> :: INITIAL_SNAKE
   /\ length (Game.snake (Game.moveSnake mealRng (Game.initialState mealRng 0%nat)))
      = 2%nat
   /\ Game.setFoodCalls (Game.moveSnake mealRng (Game.initialState mealRng 0%nat))
      = 1%nat
   /\ Game.food (Game.moveSnake mealRng (Game.initialState mealRng 0%nat))
      = << 20, 20 >>)
  /\ (Game.snake (Game.moveSnake mealRng atCentre) = [ << 16, 15 >> ]
      /\ length (Game.snake (Game.moveSnake mealRng atCentre)) = 1%nat
      /\ Game.food (Game.moveSnake mealRng atCentre) = << 5, 5 >>
      /\ Game.setFoodCalls (Game.moveSnake mealRng atCentre) = 0%nat).
Proof.
  split.
  - destruct (growth_on_successful_tick mealRng (Game.initialState mealRng 0%nat)
                << 16, 15 >>) as [Heat _]; [reflexivity | reflexivity | reflexivity |].
    apply Heat. reflexivity.
  - destruct (growth_on_successful_tick mealRng atCentre << 16, 15 >>)
      as [_ Hmove]; [reflexivity | reflexivity | reflexivity |].
    apply Hmove. discriminate.
Defined.

Lemma rngThen_ok (l : list Z) (x y : Z) :
  Forall (fun v => 0 <= v < GRID_SIZE) l ->
  0 <= x < GRID_SIZE -> 0 <= y < GRID_SIZE ->
  rng_ok (rngThen l x y).
Proof.
  intros Hl Hx Hy k. unfold rngThen.
  destruct (k <? length l)%nat eqn:Hk.
  - apply Nat.ltb_lt in Hk. rewrite Forall_forall in Hl.
    apply Hl, nth_In, Hk.
  - destruct (Nat.even k); assumption.
Qed.

Lemma biteState_reachable : Game.reachable biteState.
Proof.
  exists biteRng, biteEvents. split; [| reflexivity].
  apply rngThen_ok; [repeat constructor | |]; unfold GRID_SIZE; lia.
Qed.

(** C8 as stated fails where the food lies on the entity.  [biteState] is
    reached from the first render; it is running, its candidate head is the
    food cell, and the food cell is the tail: the whole body is checked,
    the tick ends the game, the entity keeps its four cells and setFood is
    not called. *)
Lemma eating_into_body_is_fatal :
  Game.reachable biteState
  /\ Game.gameOver biteState = false
  /\ Game.candidateHead biteState = Some (Game.food biteState)
  /\ Game.gameOver (Game.moveSnake biteRng biteState) = true
  /\ length (Game.snake biteState) = 4%nat
  /\ length (Game.snake (Game.moveSnake biteRng biteState)) = 4%nat
  /\ Game.setFoodCalls (Game.moveSnake biteRng biteState)
     = Game.setFoodCalls biteState
  /\ ~ (forall rng s h,
          Game.gameOver s = false ->
          Game.candidateHead s = Some h ->
          h = Game.food s ->
          length (Game.snake (Game.moveSnake rng s)) = S (length (Game.snake s))).
Proof.
  split; [exact biteState_reachable |].
  repeat (split; [vm_compute; reflexivity |]).
  intros H.
  specialize (H biteRng biteState (Game.food biteState) eq_refl eq_refl eq_refl).
  vm_compute in H. discriminate.
Qed.

(** ** Food placement and the retry budget *)

(** The loop leaves either because the draw is free or because the budget
    is used up; [attempts] counts the draws made after the first. *)
Lemma retryFood_spec (rng : Rng) (budget : nat) (segments : list Position) :
  forall p attempts calls p' attempts' calls',
    Game.retryFood rng budget segments p attempts calls = (p', attempts', calls') ->
    (attempts <= attempts' <= attempts + budget)%nat
    /\ calls' = (calls + 2 * (attempts' - attempts))%nat
    /\ (occupies segments p' = false \/ attempts' = (attempts + budget)%nat).
Proof.
  induction budget as [| budget IH]; intros p attempts calls p' attempts' calls' E;
    simpl in E.
  - injection E as <- <- <-.
    split; [lia |]. split; [lia | right; lia].
  - destruct (occupies segments p) eqn:Hocc.
    + apply IH in E. destruct E as (Hb & Hc & Hd).
      split; [lia |]. split; [lia |].
      destruct Hd as [Hd | Hd]; [left; exact Hd | right; lia].
    + injection E as <- <- <-.
      split; [lia |]. split; [lia | left; exact Hocc].
Qed.

Lemma retryFood_exhausted (rng : Rng) (budget : nat) (segments : list Position) :
  forall p attempts calls,
    occupies segments p = true ->
    hitsFrom rng segments calls ->
    exists p',
      Game.retryFood rng budget segments p attempts calls
        = (p', (attempts + budget)%nat, (calls + 2 * budget)%nat)
      /\ occupies segments p' = true.
Proof.
  induction budget as [| budget IH]; intros p attempts calls Hp Hhit; simpl.
  - exists p. rewrite !Nat.add_0_r. auto.
  - rewrite Hp.
    destruct (IH << rng calls, rng (S calls) >> (S attempts) (S (S calls)))
      as (p' & E & Hp').
    + specialize (Hhit 0%nat). rewrite Nat.add_0_r in Hhit. exact Hhit.
    + intros j. specialize (Hhit (S j)).
      replace (S (S calls) + 2 * j)%nat with (calls + 2 * S j)%nat by lia.
      exact Hhit.
    + exists p'. split; [| exact Hp'].
      rewrite E. f_equal; [f_equal |]; lia.
Qed.

Lemma placeFood_exhausted (rng : Rng) (segments : list Position) (calls : nat) :
  hitsFrom rng segments calls ->
  exists p',
    Game.placeFood rng segments calls
      = (p', Game.MAX_FOOD_ATTEMPTS, (calls + 2 + 2 * Game.MAX_FOOD_ATTEMPTS)%nat)
    /\ occupies segments p' = true.
Proof.
  intros Hhit. unfold Game.placeFood, generateRandomPosition.
  destruct (retryFood_exhausted rng Game.MAX_FOOD_ATTEMPTS segments
              << rng calls, rng (S calls) >> 0%nat (S (S calls)))
    as (p' & E & Hp').
  - specialize (Hhit 0%nat). rewrite Nat.add_0_r in Hhit. exact Hhit.
  - intros j. specialize (Hhit (S j)).
    replace (S (S calls) + 2 * j)%nat with (calls + 2 * S j)%nat by lia.
    exact Hhit.
  - exists p'. split; [| exact Hp']. rewrite E. f_equal. lia.
Qed.



(** X16: What resetGame does instead: the sentinel and one scheduled re-roll. *)
Lemma resetGame_exhausted (rng : Rng) (s : Game.State) :
  hitsFrom rng INITIAL_SNAKE (Game.randomCalls s) ->
  Game.food (Game.resetGame rng s) = << -1, -1 >>
  /\ Game.timeouts (Game.resetGame rng s) = S (Game.timeouts s).
Proof.
  intros Hhit. unfold Game.resetGame.
  destruct (placeFood_exhausted rng _ _ Hhit) as (p' & E & _).
  rewrite E. rewrite Nat.leb_refl. split; reflexivity.
Qed.

(** X15: The food resetGame sets never lies on the entity it sets. *)
Lemma resetGame_food_off_entity (rng : Rng) (s : Game.State) :
  ~ In (Game.food (Game.resetGame rng s)) (Game.snake (Game.resetGame rng s)).
Proof.
  unfold Game.resetGame.
  destruct (Game.placeFood rng INITIAL_SNAKE (Game.randomCalls s))
    as [[drawn attempts] calls] eqn:E.
  unfold Game.placeFood, generateRandomPosition in E.
  apply retryFood_spec in E. destruct E as (_ & _ & Hd).
  destruct (Game.MAX_FOOD_ATTEMPTS <=? attempts)%nat eqn:Hex;
    cbn [Game.food Game.snake].
  - intros [H | []]. vm_compute in H. discriminate H.
  - apply Nat.leb_gt in Hex.
    destruct Hd as [Hd | Hd]; [apply occupies_not_In, Hd | lia].
Qed.

(** X12: Where the invariant on the food does hold: after a tick that does
    not end the game, the food is off the entity, provided it was off the
    cells the entity keeps and, when the tick eats, that the loop stopped
    before its budget ran out. *)
Lemma tick_keeps_food_off_entity (rng : Rng) (s : Game.State) (h : Position) :
  Game.gameOver s = false ->
  Game.candidateHead s = Some h ->
  Game.gameOver (Game.moveSnake rng s) = false ->
  ~ In (Game.food s) (removelast (Game.snake s)) ->
  (h = Game.food s ->
   (snd (fst (Game.placeFood rng (h :: Game.snake s) (Game.randomCalls s)))
    < Game.MAX_FOOD_ATTEMPTS)%nat) ->
  ~ In (Game.food (Game.moveSnake rng s)) (Game.snake (Game.moveSnake rng s)).
Proof.
  intros Hrun Hh Hok Hoff Hbudget.
  destruct (moveSnake_cases rng s h Hrun Hh) as [_ | nf a c _ He Hp | _ He].
  - simpl in Hok. discriminate.
  - specialize (Hbudget He). rewrite Hp in Hbudget. simpl in Hbudget.
    unfold Game.placeFood, generateRandomPosition in Hp.
    apply retryFood_spec in Hp. destruct Hp as (_ & _ & [Hfree | Hfull]);
      [| lia].
    cbn [Game.food Game.snake Game.setSnake Game.setFood].
    apply occupies_not_In. exact Hfree.
  - cbn [Game.food Game.snake Game.setSnake]. rewrite consumeQueued_food.
    intros [E | Hin]; [apply He; exact E | exact (Hoff Hin)].
Qed.

(** The ref and the React state of the direction never differ, so the
    effect that copies [direction] into [directionRef.current] changes
    nothing. *)
Lemma step_direction_sync (rng : Rng) (e : Game.Event) (s : Game.State) :
  Game.directionRef s = Game.direction s ->
  Game.directionRef (Game.step rng e s) = Game.direction (Game.step rng e s).
Proof.
  intros Hsync. unfold Game.step.
  assert (Hlevel : forall t, Game.directionRef t = Game.direction t ->
                             Game.directionRef (Game.levelEffect t)
                             = Game.direction (Game.levelEffect t)).
  { intros t Ht. unfold Game.levelEffect. destruct (_ =? _); exact Ht. }
  apply Hlevel. destruct e as [| key | |].
  - unfold Game.moveSnake. destruct (Game.gameOver s); [exact Hsync |].
    assert (Hq : Game.directionRef (Game.consumeQueued s)
                 = Game.direction (Game.consumeQueued s))
      by (unfold Game.consumeQueued; destruct (Game.queuedDirectionRef s);
          [reflexivity | exact Hsync]).
    cbv zeta.
    destruct (Game.snake (Game.consumeQueued s)); [exact Hq |].
    destruct (Game.checkCollision _ _); [exact Hq |].
    destruct (Position.eqb _ _); [| exact Hq].
    destruct (Game.placeFood _ _ _) as [[newFood attempts] calls]. exact Hq.
  - unfold Game.handleKeyPress.
    destruct key; repeat (destruct (Direction_eqb _ _)); exact Hsync.
  - destruct (Game.gameOver s); [| exact Hsync].
    unfold Game.resetGame.
    destruct (Game.placeFood _ _ _) as [[drawn attempts] calls]. reflexivity.
  - unfold Game.runTimeout. destruct (Game.timeouts s); exact Hsync.
Qed.

(** X18: In every state a game can reach, the ref and the React state of the
    direction hold the same value: the effect that copies [direction] into
    [directionRef.current] after a render never changes the ref. *)
Lemma reachable_direction_sync (s : Game.State) :
  Game.reachable s -> Game.directionRef s = Game.direction s.
Proof.
  intros (rng & events & _ & ->).
  assert (H : forall t, Game.directionRef t = Game.direction t ->
                        Game.directionRef (Game.run rng events t)
                        = Game.direction (Game.run rng events t)).
  { unfold Game.run. induction events as [| e events IH]; intros t Ht; simpl;
      [exact Ht | apply IH, step_direction_sync, Ht]. }
  apply H. reflexivity.
Qed.

Lemma stuckRng_ok : rng_ok stuckRng.
Proof. apply rngThen_ok; [constructor | |]; unfold GRID_SIZE; lia. Qed.

Lemma centreRng_ok : rng_ok centreRng.
Proof. apply rngThen_ok; [constructor | |]; unfold GRID_SIZE; lia. Qed.

(** C4: moveSnake has no fallback.  From the first render with the food
    right of the start cell and every later draw on that same cell, the
    tick eats, the loop runs out of its 100 attempts on occupied draws, and
    the food it sets is the last draw: on the head of the grown entity,
    inside the grid, with no timeout scheduled.  resetGame, on draws that
    all hit its entity, sets the sentinel (-1, -1) and schedules one
    re-roll. *)
Theorem moveSnake_exhaustion_has_no_sentinel :
  rng_ok stuckRng
  /\ Game.placeFood stuckRng [ << 16, 15 >>; << 15, 15 >> ] 2%nat
     = (<< 16, 15 >>, Game.MAX_FOOD_ATTEMPTS, 204%nat)
  /\ Game.moveSnake stuckRng stuckStart
     = Game.mkState [ << 16, 15 >>; << 15, 15 >> ] << 16, 15 >> RIGHT RIGHT None
                    false 1 BASE_SPEED 0%nat 1%nat 204%nat
  /\ Game.food (Game.resetGame centreRng finished) = << -1, -1 >>
  /\ Game.timeouts (Game.resetGame centreRng finished) = 1%nat.
Proof.
  split; [exact stuckRng_ok |].
  by_evaluation.
Qed.

(** C5: the food stays on the entity for more than one frame.  In the
    game of C4 the first tick succeeds and leaves the food on the head; the
    second tick succeeds too, nothing re-rolls the food, and it now lies
    under the second cell of the entity. *)
Theorem food_stays_on_entity :
  Game.reachable stuckAfter2
  /\ Game.gameOver stuckAfter1 = false
  /\ In (Game.food stuckAfter1) (Game.snake stuckAfter1)
  /\ Game.timeouts stuckAfter1 = 0%nat
  /\ Game.gameOver stuckAfter2 = false
  /\ Game.snake stuckAfter2 = [ << 17, 15 >>; << 16, 15 >> ]
  /\ Game.food stuckAfter2 = << 16, 15 >>
  /\ In (Game.food stuckAfter2) (Game.snake stuckAfter2).
Proof.
  split.
  { exists stuckRng, [Game.Tick; Game.Tick].
    split; [exact stuckRng_ok | reflexivity]. }
  by_evaluation.
Qed.

(** The first render: everything but the food is as the specification
    says; the food is one draw, whatever cell it is. *)
Lemma initialState_shape (rng : Rng) (calls : nat) :
  Game.snake (Game.initialState rng calls) = [ << 15, 15 >> ]
  /\ Game.food (Game.initialState rng calls) = << rng calls, rng (S calls) >>
  /\ Game.direction (Game.initialState rng calls) = RIGHT
  /\ Game.directionRef (Game.initialState rng calls) = RIGHT
  /\ Game.queuedDirectionRef (Game.initialState rng calls) = None
  /\ Game.gameOver (Game.initialState rng calls) = false
  /\ Game.level (Game.initialState rng calls) = 1
  /\ Game.intervalDelay (Game.initialState rng calls) = BASE_SPEED.
Proof. repeat split; reflexivity. Qed.

(** C6: the first food is not checked against the entity.  When the two
    first draws are 15 and 15, the state of the first render has its food
    on the one cell of the entity. *)
Theorem initial_food_can_cover_entity :
  rng_ok centreRng
  /\ Game.initialState centreRng 0%nat
     = Game.mkState [ << 15, 15 >> ] << 15, 15 >> RIGHT RIGHT None false
                    1 BASE_SPEED 0%nat 0%nat 2%nat
  /\ In (Game.food (Game.initialState centreRng 0%nat))
        (Game.snake (Game.initialState centreRng 0%nat)).
Proof.
  split; [exact centreRng_ok |].
  by_evaluation.
Qed.

(** * Invariants of the running game *)

(** ** Proving a property of every reachable state *)

Lemma run_invariant (P : Game.State -> Prop) (rng : Rng) :
  (forall e s, P s -> P (Game.step rng e s)) ->
  forall events s, P s -> P (Game.run rng events s).
Proof.
  intros Hstep events. unfold Game.run.
  induction events as [| e events IH]; intros s Hs; simpl; [exact Hs |].
  apply IH, Hstep, Hs.
Qed.

Lemma levelEffect_invariant (P : Game.State -> Prop) :
  (forall l i s, P s -> P (Game.setLevelAndDelay l i s)) ->
  forall s, P s -> P (Game.levelEffect s).
Proof.
  intros Hset s Hs. unfold Game.levelEffect.
  destruct (_ =? _); [exact Hs | apply Hset, Hs].
Qed.

Lemma consumeQueued_queue (s : Game.State) :
  Game.queuedDirectionRef (Game.consumeQueued s) = None.
Proof.
  unfold Game.consumeQueued.
  destruct (Game.queuedDirectionRef s) eqn:E; [reflexivity | exact E].
Qed.

Lemma moveSnake_empty (rng : Rng) (s : Game.State) :
  Game.gameOver s = false -> Game.snake s = [] ->
  Game.moveSnake rng s = Game.consumeQueued s.
Proof.
  intros Hrun Hs. unfold Game.moveSnake. rewrite Hrun. cbv zeta.
  rewrite consumeQueued_snake, Hs. reflexivity.
Qed.

Lemma candidateHead_cons (s : Game.State) (head0 : Position) (rest : list Position) :
  Game.snake s = head0 :: rest ->
  Game.candidateHead s = Some (advance (Game.committedDirection s) head0).
Proof. intros Hs. unfold Game.candidateHead. rewrite Hs. reflexivity. Qed.

Lemma opposite_involutive (d : Direction) : opposite (opposite d) = d.
Proof. destruct d; reflexivity. Qed.

Lemma advance_opposite (d : Direction) (p : Position) :
  advance (opposite d) (advance d p) = p.
Proof.
  destruct p as [a b], d; simpl; f_equal; lia.
Qed.

Lemma advance_back (c d : Direction) (p : Position) :
  advance c (advance d p) = p -> c = opposite d.
Proof.
  destruct p as [a b], c, d; simpl; intros E; inversion E;
    try reflexivity; lia.
Qed.

(** ** The entity never turns back on its second cell *)

Lemma moveSnake_steady (rng : Rng) (s : Game.State) :
  steady s -> steady (Game.moveSnake rng s).
Proof.
  intros [Hq Hneck].
  destruct (Game.gameOver s) eqn:Hrun.
  { rewrite moveSnake_gameOver by exact Hrun. split; [exact Hq |].
    intros Hrun'. congruence. }
  destruct (Game.snake s) as [| head0 rest] eqn:Hs.
  { rewrite moveSnake_empty by assumption. split.
    - intros q E. rewrite consumeQueued_queue in E. discriminate.
    - intros _ h n rest' E. rewrite consumeQueued_snake, Hs in E. discriminate. }
  pose proof (candidateHead_cons s head0 rest Hs) as Hh.
  destruct (moveSnake_cases rng s _ Hrun Hh) as [_ | nf a c _ _ _ | _ _];
    (split; [intros q E; simpl in E; rewrite consumeQueued_queue in E; discriminate |]).
  - intros Hover. simpl in Hover. discriminate.
  - intros _ h n rest' E. simpl in E. rewrite Hs in E.
    injection E as <- <- _. simpl. apply f_equal2; [| reflexivity].
    symmetry. apply consumeQueued_directionRef.
  - intros _ h n rest' E. simpl in E. rewrite Hs in E.
    destruct rest as [| r rest]; [discriminate |].
    change (removelast (head0 :: r :: rest)) with (head0 :: removelast (r :: rest)) in E.
    injection E as <- <- _. simpl. apply f_equal2; [| reflexivity].
    symmetry. apply consumeQueued_directionRef.
Qed.

Lemma setQueued_steady (d : Direction) (s : Game.State) :
  d <> opposite (Game.directionRef s) ->
  steady s -> steady (Game.setQueued (Some d) s).
Proof.
  intros Hd [_ Hneck]. split; [| exact Hneck].
  intros q E. simpl in E. injection E as <-. exact Hd.
Qed.

Lemma handleKeyPress_steady (key : Key) (s : Game.State) :
  steady s -> steady (Game.handleKeyPress key s).
Proof.
  intros Hst. unfold Game.handleKeyPress.
  destruct key; try exact Hst;
    destruct (Direction_eqb (Game.directionRef s) _) eqn:Hd; try exact Hst;
    apply setQueued_steady; try exact Hst;
    destruct (Game.directionRef s); simpl in *; discriminate.
Qed.

Lemma step_steady (rng : Rng) (e : Game.Event) (s : Game.State) :
  steady s -> steady (Game.step rng e s).
Proof.
  intros Hst. unfold Game.step.
  apply levelEffect_invariant; [intros l i t Ht; exact Ht |].
  destruct e as [| key | |].
  - apply moveSnake_steady, Hst.
  - apply handleKeyPress_steady, Hst.
  - destruct (Game.gameOver s); [| exact Hst].
    unfold Game.resetGame.
    destruct (Game.placeFood _ _ _) as [[drawn attempts] calls].
    split; [intros q E; discriminate | intros _ h n rest E; discriminate].
  - unfold Game.runTimeout. destruct (Game.timeouts s); exact Hst.
Qed.

Lemma initialState_steady (rng : Rng) (calls : nat) :
  steady (Game.initialState rng calls).
Proof.
  split; [intros q E; discriminate | intros _ h n rest E; discriminate].
Qed.

(** X3: in a running state that a game can reach, with an entity of two
    cells or more, the direction the next tick commits is not the reverse
    of the committed one, and the candidate head is not the second cell:
    no sequence of keys makes the entity run back into itself. *)
Theorem never_turns_into_second_cell (s : Game.State) (h n c : Position)
        (rest : list Position) :
  Game.reachable s ->
  Game.gameOver s = false ->
  Game.snake s = h :: n :: rest ->
  Game.candidateHead s = Some c ->
  Game.committedDirection s <> opposite (Game.directionRef s) /\ c <> n.
Proof.
  intros (rng & events & _ & ->) Hrun Hs Hc.
  destruct (run_invariant steady rng (fun e t => step_steady rng e t) events _
              (initialState_steady rng 0%nat)) as [Hq Hneck].
  set (s := Game.run rng events (Game.initialState rng 0%nat)) in *.
  assert (Hdir : Game.committedDirection s <> opposite (Game.directionRef s)).
  { unfold Game.committedDirection.
    destruct (Game.queuedDirectionRef s) as [q |] eqn:E; [apply Hq; reflexivity |].
    destruct (Game.directionRef s); discriminate. }
  split; [exact Hdir |].
  rewrite (candidateHead_cons s h (n :: rest) Hs) in Hc. injection Hc as <-.
  rewrite (Hneck Hrun h n rest Hs).
  intros E. apply advance_back in E. exact (Hdir E).
Qed.

Lemma never_turns_into_second_cell_witness :
  Game.committedDirection biteState <> opposite (Game.directionRef biteState)
  /\ << 18, 15 >> <> << 17, 16 >>.
Proof.
  apply (never_turns_into_second_cell biteState << 17, 15 >> << 17, 16 >> << 18, 15 >>
           [ << 18, 16 >>; << 18, 15 >> ]).
  - exact biteState_reachable.
  - vm_compute. reflexivity.
  - vm_compute. reflexivity.
  - vm_compute. reflexivity.
Defined.

(** ** Level and delay follow the score *)

Lemma levelEffect_levelled (s : Game.State) :
  Game.intervalDelay s = calculateSpeed (Game.level s) ->
  levelled (Game.levelEffect s).
Proof.
  intros Hdelay. unfold Game.levelEffect.
  destruct (calculateLevel (Game.score s) =? Game.level s) eqn:E.
  - apply Z.eqb_eq in E. split; [symmetry; exact E | exact Hdelay].
  - split; reflexivity.
Qed.

Lemma step_levelled (rng : Rng) (e : Game.Event) (s : Game.State) :
  levelled s -> levelled (Game.step rng e s).
Proof.
  intros [_ Hdelay]. unfold Game.step. apply levelEffect_levelled.
  destruct e as [| key | |].
  - unfold Game.moveSnake. destruct (Game.gameOver s); [exact Hdelay |].
    assert (Hq : Game.intervalDelay (Game.consumeQueued s)
                 = calculateSpeed (Game.level (Game.consumeQueued s)))
      by (unfold Game.consumeQueued; destruct (Game.queuedDirectionRef s);
          exact Hdelay).
    cbv zeta.
    destruct (Game.snake (Game.consumeQueued s)); [exact Hq |].
    destruct (Game.checkCollision _ _); [exact Hq |].
    destruct (Position.eqb _ _); [| exact Hq].
    destruct (Game.placeFood _ _ _) as [[newFood attempts] calls]. exact Hq.
  - unfold Game.handleKeyPress.
    destruct key; repeat (destruct (Direction_eqb _ _)); exact Hdelay.
  - destruct (Game.gameOver s); [| exact Hdelay].
    unfold Game.resetGame.
    destruct (Game.placeFood _ _ _) as [[drawn attempts] calls]. reflexivity.
  - unfold Game.runTimeout. destruct (Game.timeouts s); exact Hdelay.
Qed.

Lemma initialState_levelled (rng : Rng) (calls : nat) :
  levelled (Game.initialState rng calls).
Proof. split; reflexivity. Qed.

(** X8: in every state a game can reach, the level is calculateLevel of
    the score and the delay is calculateSpeed of the level; the level lies
    between 1 and MAX_LEVEL and the delay between 65 and BASE_SPEED
    milliseconds, so the floor of 50 in calculateSpeed is never used. *)
Theorem reachable_level_follows_score (s : Game.State) :
  Game.reachable s ->
  Game.level s = calculateLevel (Game.score s)
  /\ Game.intervalDelay s = calculateSpeed (Game.level s)
  /\ 1 <= Game.level s <= MAX_LEVEL
  /\ 65 <= Game.intervalDelay s <= BASE_SPEED.
Proof.
  intros (rng & events & _ & ->).
  destruct (run_invariant levelled rng (fun e t => step_levelled rng e t) events _
              (initialState_levelled rng 0%nat)) as [Hl Hd].
  destruct (run_wellFormed rng events (Game.initialState rng 0%nat)
              INITIAL_SNAKE_wellFormed) as (Hne & _).
  set (s := Game.run rng events (Game.initialState rng 0%nat)) in *.
  assert (Hscore : 0 <= Game.score s).
  { unfold Game.score. destruct (Game.snake s); [contradiction | simpl length; lia]. }
  assert (H0 : 0 <= Game.score s / 5) by (apply Z.div_pos; lia).
  rewrite Hd, Hl.
  unfold calculateSpeed, calculateLevel, MAX_LEVEL, SCORE_PER_LEVEL, BASE_SPEED,
    SPEED_DECREMENT.
  repeat split; lia.
Qed.

Lemma reachable_level_follows_score_witness :
  Game.level biteState = calculateLevel (Game.score biteState)
  /\ Game.intervalDelay biteState = calculateSpeed (Game.level biteState)
  /\ 1 <= Game.level biteState <= MAX_LEVEL
  /\ 65 <= Game.intervalDelay biteState <= BASE_SPEED.
Proof.
  apply (reachable_level_follows_score biteState). exact biteState_reachable.
Defined.

(** X9: the effect on [score, level] settles after one run: run on its
    own result it changes nothing, so setting the level does not start a
    chain of renders. *)
Theorem levelEffect_settles (s : Game.State) :
  Game.levelEffect (Game.levelEffect s) = Game.levelEffect s.
Proof.
  unfold Game.levelEffect, Game.score.
  destruct (calculateLevel (Z.of_nat (length (Game.snake s)) - 1) =? Game.level s)
    eqn:E.
  - rewrite E. reflexivity.
  - cbn [Game.snake Game.level Game.setLevelAndDelay].
    rewrite Z.eqb_refl. reflexivity.
Qed.


(** ** Where the food can be *)

Lemma generateRandomPosition_inGrid (rng : Rng) (calls : nat) :
  rng_ok rng -> inGrid (fst (generateRandomPosition rng calls)).
Proof. intros Hok. split; apply Hok. Qed.

Lemma retryFood_inGrid (rng : Rng) (budget : nat) (segments : list Position) :
  rng_ok rng ->
  forall p attempts calls,
    inGrid p -> inGrid (fst (fst (Game.retryFood rng budget segments p attempts calls))).
Proof.
  intros Hok. induction budget as [| budget IH]; intros p attempts calls Hp; simpl.
  - exact Hp.
  - destruct (occupies segments p); [| exact Hp].
    apply IH. split; apply Hok.
Qed.

Lemma placeFood_inGrid (rng : Rng) (segments : list Position) (calls : nat) :
  rng_ok rng -> inGrid (fst (fst (Game.placeFood rng segments calls))).
Proof.
  intros Hok. unfold Game.placeFood, generateRandomPosition.
  apply retryFood_inGrid; [exact Hok | split; apply Hok].
Qed.

Lemma moveSnake_foodPlaced (rng : Rng) (s : Game.State) :
  rng_ok rng -> foodPlaced s -> foodPlaced (Game.moveSnake rng s).
Proof.
  intros Hok Hf. unfold Game.moveSnake.
  destruct (Game.gameOver s); [exact Hf |].
  assert (Hq : foodPlaced (Game.consumeQueued s))
    by (unfold Game.consumeQueued; destruct (Game.queuedDirectionRef s); exact Hf).
  cbv zeta.
  destruct (Game.snake (Game.consumeQueued s)) as [| head0 rest]; [exact Hq |].
  destruct (Game.checkCollision _ _); [exact Hq |].
  destruct (Position.eqb _ _); [| exact Hq].
  pose proof (placeFood_inGrid rng
                (advance (Game.directionRef (Game.consumeQueued s)) head0
                   :: head0 :: rest)
                (Game.randomCalls (Game.consumeQueued s)) Hok) as Hin.
  destruct (Game.placeFood _ _ _) as [[newFood attempts] calls].
  left. exact Hin.
Qed.

Lemma step_foodPlaced (rng : Rng) (e : Game.Event) (s : Game.State) :
  rng_ok rng -> foodPlaced s -> foodPlaced (Game.step rng e s).
Proof.
  intros Hok Hf. unfold Game.step.
  apply levelEffect_invariant; [intros l i t Ht; exact Ht |].
  destruct e as [| key | |].
  - apply moveSnake_foodPlaced; assumption.
  - unfold Game.handleKeyPress.
    destruct key; repeat (destruct (Direction_eqb _ _)); exact Hf.
  - destruct (Game.gameOver s); [| exact Hf].
    unfold Game.resetGame.
    pose proof (placeFood_inGrid rng INITIAL_SNAKE (Game.randomCalls s) Hok) as Hin.
    destruct (Game.placeFood _ _ _) as [[drawn attempts] calls].
    destruct (Game.MAX_FOOD_ATTEMPTS <=? attempts)%nat.
    + right. split; [reflexivity | simpl; lia].
    + left. exact Hin.
  - unfold Game.runTimeout. destruct (Game.timeouts s); [exact Hf |].
    left. split; apply Hok.
Qed.

(** X11: in every state a game can reach, the food is a cell of the grid,
    or it is the placeholder (-1, -1) of resetGame and a re-roll is still
    pending; the tick itself never puts the food off the grid. *)
Theorem reachable_food_on_grid_or_pending (s : Game.State) :
  Game.reachable s ->
  inGrid (Game.food s)
  \/ (Game.food s = << -1, -1 >> /\ (0 < Game.timeouts s)%nat).
Proof.
  intros (rng & events & Hok & ->).
  apply (run_invariant foodPlaced rng (fun e t => step_foodPlaced rng e t Hok)).
  left. apply (generateRandomPosition_inGrid rng 0%nat Hok).
Qed.

Lemma reachable_food_on_grid_or_pending_witness :
  inGrid (Game.food biteState)
  \/ (Game.food biteState = << -1, -1 >> /\ (0 < Game.timeouts biteState)%nat).
Proof.
  apply (reachable_food_on_grid_or_pending biteState). exact biteState_reachable.
Defined.

(** ** The entity is a path *)

Lemma connected_tail (a : Position) (l : list Position) :
  connected (a :: l) -> connected l.
Proof. destruct l as [| b l]; [intros _; exact I | intros [_ H]; exact H]. Qed.

Lemma connected_removelast (l : list Position) :
  connected l -> connected (removelast l).
Proof.
  induction l as [| a l IH]; [intros H; exact H |].
  destruct l as [| b l]; [intros _; exact I |].
  change (removelast (a :: b :: l)) with (a :: removelast (b :: l)).
  intros [Hab Hl]. specialize (IH Hl).
  destruct l as [| c l]; [exact I |].
  change (removelast (b :: c :: l)) with (b :: removelast (c :: l)) in *.
  split; assumption.
Qed.

Lemma connected_push (h head0 : Position) (l : list Position) :
  adjacent h head0 -> connected (head0 :: l) ->
  connected (h :: removelast (head0 :: l)).
Proof.
  intros Hadj Hl. destruct l as [| b l]; [exact I |].
  change (removelast (head0 :: b :: l)) with (head0 :: removelast (b :: l)).
  split; [exact Hadj |].
  apply (connected_removelast (head0 :: b :: l)). exact Hl.
Qed.

Lemma moveSnake_connected (rng : Rng) (s : Game.State) :
  connected (Game.snake s) -> connected (Game.snake (Game.moveSnake rng s)).
Proof.
  intros Hc.
  destruct (Game.gameOver s) eqn:Hrun.
  { rewrite moveSnake_gameOver by exact Hrun. exact Hc. }
  destruct (Game.snake s) as [| head0 rest] eqn:Hs.
  { rewrite moveSnake_empty, consumeQueued_snake, Hs by assumption. exact I. }
  pose proof (candidateHead_cons s head0 rest Hs) as Hh.
  assert (Hadj : adjacent (advance (Game.committedDirection s) head0) head0)
    by (eexists; reflexivity).
  destruct (moveSnake_cases rng s _ Hrun Hh) as [_ | nf a c _ _ _ | _ _]; simpl.
  - rewrite consumeQueued_snake, Hs. exact Hc.
  - rewrite Hs. split; assumption.
  - rewrite Hs. apply connected_push; assumption.
Qed.

Lemma step_connected (rng : Rng) (e : Game.Event) (s : Game.State) :
  connected (Game.snake s) -> connected (Game.snake (Game.step rng e s)).
Proof.
  intros Hc. unfold Game.step.
  apply (levelEffect_invariant (fun t => connected (Game.snake t)));
    [intros l i t Ht; exact Ht |].
  destruct e as [| key | |].
  - apply moveSnake_connected, Hc.
  - unfold Game.handleKeyPress.
    destruct key; repeat (destruct (Direction_eqb _ _)); exact Hc.
  - destruct (Game.gameOver s); [| exact Hc].
    unfold Game.resetGame.
    destruct (Game.placeFood _ _ _) as [[drawn attempts] calls]. exact I.
  - unfold Game.runTimeout. destruct (Game.timeouts s); exact Hc.
Qed.

(** X6: in every state a game can reach, each cell of the entity is one
    step (up, down, left or right) from the cell that follows it. *)
Theorem reachable_entity_is_path (s : Game.State) :
  Game.reachable s -> connected (Game.snake s).
Proof.
  intros (rng & events & _ & ->).
  apply (run_invariant (fun t => connected (Game.snake t)) rng
           (fun e t => step_connected rng e t)).
  exact I.
Qed.

Lemma reachable_entity_is_path_witness : connected (Game.snake biteState).
Proof.
  apply (reachable_entity_is_path biteState). exact biteState_reachable.
Defined.

(** ** The entity fits the grid *)

Lemma allCells_length : length allCells = 900%nat.
Proof. vm_compute. reflexivity. Qed.

Lemma inGrid_allCells (p : Position) : inGrid p -> In p allCells.
Proof.
  destruct p as [a b]. unfold inGrid, GRID_SIZE.
  cbn [Position.x Position.y]. intros [Ha Hb].
  unfold allCells. apply in_flat_map.
  exists (Z.to_nat a). split; [apply in_seq; unfold GRID_SIZE; lia |].
  apply in_map_iff. exists (Z.to_nat b).
  split; [| apply in_seq; unfold GRID_SIZE; lia].
  rewrite !Z2Nat.id by lia. reflexivity.
Qed.

(** X7: in every state a game can reach the entity has between 1 and 900
    cells, so the score lies between 0 and 899. *)
Theorem reachable_score_bounded (s : Game.State) :
  Game.reachable s ->
  (1 <= length (Game.snake s) <= 900)%nat /\ 0 <= Game.score s <= 899.
Proof.
  intros (rng & events & _ & ->).
  destruct (run_wellFormed rng events (Game.initialState rng 0%nat)
              INITIAL_SNAKE_wellFormed) as (Hne & Hnd & Hin).
  set (s := Game.run rng events (Game.initialState rng 0%nat)) in *.
  assert (Hle : (length (Game.snake s) <= 900)%nat).
  { rewrite <- allCells_length. apply NoDup_incl_length; [exact Hnd |].
    intros p Hp. rewrite Forall_forall in Hin. apply inGrid_allCells, Hin, Hp. }
  assert (Hge : (1 <= length (Game.snake s))%nat)
    by (destruct (Game.snake s); [contradiction | simpl; lia]).
  unfold Game.score. lia.
Qed.

Lemma reachable_score_bounded_witness :
  (1 <= length (Game.snake biteState) <= 900)%nat /\ 0 <= Game.score biteState <= 899.
Proof.
  apply (reachable_score_bounded biteState). exact biteState_reachable.
Defined.

(** ** Witnesses of the earlier lemmas *)

Lemma reachable_wellFormed_witness : Game.wellFormed biteState.
Proof.
  apply (reachable_wellFormed biteState). exact biteState_reachable.
Defined.

Lemma reachable_direction_sync_witness :
  Game.directionRef biteState = Game.direction biteState.
Proof.
  apply (reachable_direction_sync biteState). exact biteState_reachable.
Defined.

Lemma centreRng_value (k : nat) : centreRng k = 15.
Proof. unfold centreRng, rngThen. simpl. destruct (Nat.even k); reflexivity. Qed.

Lemma resetGame_exhausted_witness :
  Game.food (Game.resetGame centreRng finished) = << -1, -1 >>
  /\ Game.timeouts (Game.resetGame centreRng finished) = S (Game.timeouts finished).
Proof.
  apply (resetGame_exhausted centreRng finished).
  intros j. rewrite !centreRng_value. reflexivity.
Defined.

Lemma tick_keeps_food_off_entity_witness :
  ~ In (Game.food (Game.moveSnake mealRng (Game.initialState mealRng 0%nat)))
       (Game.snake (Game.moveSnake mealRng (Game.initialState mealRng 0%nat))).
Proof.
  apply (tick_keeps_food_off_entity mealRng (Game.initialState mealRng 0%nat)
           << 16, 15 >>).
  - reflexivity.
  - reflexivity.
  - vm_compute. reflexivity.
  - simpl. tauto.
  - intros _. vm_compute. lia.
Defined.

Lemma app_tail_turn_always_fatal_witness :
  AppTsx.moveSnake coilRng 0 coilApp
  = Some (AppTsx.mkState (AppTsx.snake coilApp) (AppTsx.food coilApp)
                         (AppTsx.direction coilApp) true (AppTsx.level coilApp)
                         (AppTsx.intervalDelay coilApp)
                         (AppTsx.randomCalls coilApp)).
Proof.
  apply (app_tail_turn_always_fatal coilRng 0 coilApp << 17, 16 >>
           [ << 18, 16 >>; << 18, 15 >>; << 17, 15 >> ]).
  - reflexivity.
  - reflexivity.
  - reflexivity.
Defined.



(** ** The key buffer *)

(** X5: the buffer holds one direction, the last one accepted: a key whose
    direction is not the reverse of the committed one replaces whatever an
    earlier key left in the buffer. *)
Theorem last_accepted_key_wins (k1 : Key) (d : Direction) (s : Game.State) :
  d <> opposite (Game.directionRef s) ->
  Game.handleKeyPress (keyOf d) (Game.handleKeyPress k1 s)
  = Game.handleKeyPress (keyOf d) s
  /\ Game.queuedDirectionRef (Game.handleKeyPress (keyOf d) (Game.handleKeyPress k1 s))
     = Some d.
Proof.
  intros Hd. destruct s as [sn fo di dr qu go lv dl tm sf rc]. simpl in Hd.
  destruct k1, d, dr; simpl in *;
    solve [ split; reflexivity | exfalso; apply Hd; reflexivity ].
Qed.

Lemma last_accepted_key_wins_witness :
  Game.handleKeyPress (keyOf DOWN) (Game.handleKeyPress ArrowUp atCentre)
  = Game.handleKeyPress (keyOf DOWN) atCentre
  /\ Game.queuedDirectionRef
       (Game.handleKeyPress (keyOf DOWN) (Game.handleKeyPress ArrowUp atCentre))
     = Some DOWN.
Proof.
  apply (last_accepted_key_wins ArrowUp DOWN atCentre). discriminate.
Defined.

(** X4: a key for the reverse of the committed direction is dropped also
    after another key was accepted in the same interval: the buffer keeps
    the earlier key, and the key handler never touches the entity, the
    food or the committed direction. *)
Theorem reversal_after_turn_is_dropped (k1 : Key) (s : Game.State) :
  Game.handleKeyPress (keyOf (opposite (Game.directionRef s)))
                      (Game.handleKeyPress k1 s)
  = Game.handleKeyPress k1 s
  /\ Game.directionRef (Game.handleKeyPress k1 s) = Game.directionRef s
  /\ Game.snake (Game.handleKeyPress k1 s) = Game.snake s
  /\ Game.food (Game.handleKeyPress k1 s) = Game.food s.
Proof.
  destruct s as [sn fo di dr qu go lv dl tm sf rc].
  destruct k1, dr; simpl; repeat split; reflexivity.
Qed.

(** ** A finished game stays finished *)

Lemma step_over (rng : Rng) (e : Game.Event) (s : Game.State) :
  Game.gameOver s = true ->
  e <> Game.PlayAgain ->
  Game.gameOver (Game.step rng e s) = true
  /\ Game.snake (Game.step rng e s) = Game.snake s
  /\ Game.directionRef (Game.step rng e s) = Game.directionRef s.
Proof.
  intros Hover He. unfold Game.step.
  apply (levelEffect_invariant
           (fun t => Game.gameOver t = true /\ Game.snake t = Game.snake s
                     /\ Game.directionRef t = Game.directionRef s));
    [intros l i t Ht; exact Ht |].
  destruct e as [| key | |].
  - rewrite moveSnake_gameOver by exact Hover. auto.
  - unfold Game.handleKeyPress.
    destruct key; repeat (destruct (Direction_eqb _ _)); simpl; auto.
  - contradiction.
  - unfold Game.runTimeout. destruct (Game.timeouts s); simpl; auto.
Qed.

(** X17: once the game-over flag is set, ticks, keys and pending re-rolls
    in any number and order leave the flag set and the entity and the
    committed direction as they were; only the Play Again button starts a
    new game. *)
Theorem game_over_is_absorbing (rng : Rng) (events : list Game.Event)
        (s : Game.State) :
  Game.gameOver s = true ->
  ~ In Game.PlayAgain events ->
  Game.gameOver (Game.run rng events s) = true
  /\ Game.snake (Game.run rng events s) = Game.snake s
  /\ Game.directionRef (Game.run rng events s) = Game.directionRef s.
Proof.
  revert s. unfold Game.run.
  induction events as [| e events IH]; intros s Hover Hno; simpl; [auto |].
  destruct (step_over rng e s Hover) as (Ho & Hs & Hd).
  { intros ->. apply Hno. left. reflexivity. }
  destruct (IH (Game.step rng e s) Ho) as (Ho' & Hs' & Hd').
  { intros Hin. apply Hno. right. exact Hin. }
  rewrite Ho', Hs', Hd', Hs, Hd. auto.
Qed.

Lemma game_over_is_absorbing_witness :
  Game.gameOver
    (Game.run stuckRng [Game.Tick; Game.Press ArrowUp; Game.Deferred; Game.Tick] finished)
  = true
  /\ Game.snake
       (Game.run stuckRng [Game.Tick; Game.Press ArrowUp; Game.Deferred; Game.Tick] finished)
     = Game.snake finished
  /\ Game.directionRef
       (Game.run stuckRng [Game.Tick; Game.Press ArrowUp; Game.Deferred; Game.Tick] finished)
     = Game.directionRef finished.
Proof.
  apply (game_over_is_absorbing stuckRng
           [Game.Tick; Game.Press ArrowUp; Game.Deferred; Game.Tick] finished).
  - reflexivity.
  - simpl. intros [H | [H | [H | [H | []]]]]; discriminate H.
Defined.

(** ** A tick draws a bounded number of positions *)

(** X14: a tick calls Math.random at most 202 times (one position and at
    most MAX_FOOD_ATTEMPTS redraws, two calls each), and calls setFood at
    most once. *)
Theorem moveSnake_draws_bounded (rng : Rng) (s : Game.State) :
  (Game.randomCalls s <= Game.randomCalls (Game.moveSnake rng s)
   <= Game.randomCalls s + 2 + 2 * Game.MAX_FOOD_ATTEMPTS)%nat
  /\ (Game.setFoodCalls s <= Game.setFoodCalls (Game.moveSnake rng s)
      <= S (Game.setFoodCalls s))%nat.
Proof.
  unfold Game.moveSnake.
  destruct (Game.gameOver s); [lia |]. cbv zeta.
  rewrite <- (consumeQueued_randomCalls s), <- (consumeQueued_setFoodCalls s).
  generalize (Game.consumeQueued s). intros t.
  destruct (Game.snake t) as [| head0 rest]; [lia |].
  destruct (Game.checkCollision _ _); [simpl; lia |].
  destruct (Position.eqb _ _); [| simpl; lia].
  destruct (Game.placeFood _ _ _) as [[newFood attempts] calls] eqn:E.
  unfold Game.placeFood, generateRandomPosition in E.
  apply retryFood_spec in E. destruct E as (Ha & Hc & _).
  cbn [Game.randomCalls Game.setFoodCalls Game.setSnake Game.setFood
       Game.setRandomCalls].
  lia.
Qed.

(** * The first component of src/App.tsx *)

(** ** Two keys between two ticks *)

Lemma app_two_keys (p : Direction) (s : AppTsx.State) :
  p <> AppTsx.direction s ->
  p <> opposite (AppTsx.direction s) ->
  AppTsx.handleKeyPress (keyOf (opposite (AppTsx.direction s)))
                        (AppTsx.handleKeyPress (keyOf p) s)
  = AppTsx.setDirection (opposite (AppTsx.direction s)) s.
Proof.
  intros H1 H2. destruct s as [sn fo di go lv dl rc]. simpl in *.
  destruct p, di; simpl;
    solve [ reflexivity | exfalso; apply H1; reflexivity
          | exfalso; apply H2; reflexivity ].
Qed.

(** X20: in src/App.tsx the key handler tests the rendered direction and
    sets it at once, so a sideways key followed by the reverse key before
    the next tick turns the entity around; with two cells or more, the
    head then moves onto the second cell and the tick ends the game. *)
Theorem app_two_keys_reverse (rng : Rng) (fuel : nat) (s : AppTsx.State)
        (h n : Position) (rest : list Position) (p : Direction) :
  AppTsx.gameOver s = false ->
  AppTsx.snake s = h :: n :: rest ->
  h = advance (AppTsx.direction s) n ->
  p <> AppTsx.direction s ->
  p <> opposite (AppTsx.direction s) ->
  AppTsx.direction
    (AppTsx.handleKeyPress (keyOf (opposite (AppTsx.direction s)))
                           (AppTsx.handleKeyPress (keyOf p) s))
  = opposite (AppTsx.direction s)
  /\ AppTsx.moveSnake rng fuel
       (AppTsx.handleKeyPress (keyOf (opposite (AppTsx.direction s)))
                              (AppTsx.handleKeyPress (keyOf p) s))
     = Some (AppTsx.mkState (AppTsx.snake s) (AppTsx.food s)
                            (opposite (AppTsx.direction s)) true
                            (AppTsx.level s) (AppTsx.intervalDelay s)
                            (AppTsx.randomCalls s)).
Proof.
  intros Hrun Hs Hh H1 H2. rewrite (app_two_keys p s H1 H2).
  split; [reflexivity |].
  unfold AppTsx.moveSnake, AppTsx.setDirection.
  cbn [AppTsx.gameOver AppTsx.snake AppTsx.direction AppTsx.food AppTsx.level
       AppTsx.intervalDelay AppTsx.randomCalls].
  rewrite Hrun, Hs, Hh, advance_opposite.
  assert (Hin : occupies (advance (AppTsx.direction s) n :: n :: rest) n = true)
    by (apply occupies_In; right; left; reflexivity).
  unfold AppTsx.checkCollision. rewrite Hin, orb_true_r. reflexivity.
Qed.

Lemma app_two_keys_reverse_witness :
  AppTsx.direction
    (AppTsx.handleKeyPress (keyOf (opposite (AppTsx.direction twoCellsApp)))
                           (AppTsx.handleKeyPress (keyOf UP) twoCellsApp))
  = opposite (AppTsx.direction twoCellsApp)
  /\ AppTsx.moveSnake coilRng 0
       (AppTsx.handleKeyPress (keyOf (opposite (AppTsx.direction twoCellsApp)))
                              (AppTsx.handleKeyPress (keyOf UP) twoCellsApp))
     = Some (AppTsx.mkState (AppTsx.snake twoCellsApp) (AppTsx.food twoCellsApp)
                            (opposite (AppTsx.direction twoCellsApp)) true
                            (AppTsx.level twoCellsApp)
                            (AppTsx.intervalDelay twoCellsApp)
                            (AppTsx.randomCalls twoCellsApp)).
Proof.
  apply (app_two_keys_reverse coilRng 0 twoCellsApp << 16, 15 >> << 15, 15 >> [] UP).
  - reflexivity.
  - reflexivity.
  - reflexivity.
  - discriminate.
  - discriminate.
Defined.

(** ** The unbounded food loop *)

Lemma app_retryFood_free (rng : Rng) (fuel : nat) (segments : list Position) :
  forall p calls p' calls',
    AppTsx.retryFood rng fuel segments p calls = Some (p', calls') ->
    occupies segments p' = false.
Proof.
  induction fuel as [| fuel IH]; intros p calls p' calls' E; simpl in E;
    destruct (occupies segments p) eqn:Hocc.
  - discriminate.
  - injection E as <- _. exact Hocc.
  - apply IH in E. exact E.
  - injection E as <- _. exact Hocc.
Qed.

(** X21: in src/App.tsx, when a tick returns without ending the game and
    the food was off the cells the entity keeps, the food is off the entity
    afterwards: the loop that redraws the food leaves only with a free
    cell. *)
Theorem app_tick_keeps_food_off_entity (rng : Rng) (fuel : nat)
        (s s' : AppTsx.State) :
  AppTsx.moveSnake rng fuel s = Some s' ->
  AppTsx.gameOver s' = false ->
  ~ In (AppTsx.food s) (removelast (AppTsx.snake s)) ->
  ~ In (AppTsx.food s') (AppTsx.snake s').
Proof.
  unfold AppTsx.moveSnake. intros E Hok Hoff.
  destruct (AppTsx.gameOver s) eqn:Hrun.
  { injection E as <-. congruence. }
  cbv zeta in E.
  destruct (AppTsx.snake s) as [| head0 rest] eqn:Hs.
  { injection E as <-. rewrite Hs. intros []. }
  destruct (AppTsx.checkCollision _ _).
  { injection E as <-. simpl in Hok. discriminate. }
  destruct (Position.eqb _ (AppTsx.food s)) eqn:He.
  - unfold generateRandomPosition in E.
    destruct (AppTsx.retryFood _ _ _ _ _) as [[newFood calls'] |] eqn:Hr;
      [| discriminate].
    injection E as <-. cbn [AppTsx.food AppTsx.snake].
    apply app_retryFood_free in Hr. apply occupies_not_In in Hr. exact Hr.
  - injection E as <-.
    cbn [AppTsx.food AppTsx.snake].
    change (removelast (?h :: head0 :: rest)) with (h :: removelast (head0 :: rest)).
    apply Position_eqb_neq in He.
    intros [Hin | Hin]; [apply He; exact Hin | exact (Hoff Hin)].
Qed.

Lemma app_tick_keeps_food_off_entity_witness :
  ~ In (AppTsx.food (AppTsx.mkState [ << 17, 15 >>; << 16, 15 >> ] << 5, 5 >> RIGHT
                                    false 1 BASE_SPEED 2%nat))
       (AppTsx.snake (AppTsx.mkState [ << 17, 15 >>; << 16, 15 >> ] << 5, 5 >> RIGHT
                                     false 1 BASE_SPEED 2%nat)).
Proof.
  apply (app_tick_keeps_food_off_entity coilRng 0 twoCellsApp).
  - reflexivity.
  - reflexivity.
  - simpl. intros [H | []]; discriminate H.
Defined.

Lemma app_retryFood_diverges (rng : Rng) (segments : list Position) :
  rng_ok rng ->
  (forall p, inGrid p -> In p segments) ->
  forall fuel p calls,
    inGrid p -> AppTsx.retryFood rng fuel segments p calls = None.
Proof.
  intros Hok Hfull. induction fuel as [| fuel IH]; intros p calls Hp; simpl;
    rewrite (proj2 (occupies_In segments p) (Hfull p Hp)); [reflexivity |].
  apply IH. split; apply Hok.
Qed.

(** X22: in src/App.tsx, when the entity grown by the food cell covers the
    whole grid, the tick that eats never returns: the loop that redraws the
    food finds every draw occupied, whatever the number of iterations
    allowed. *)
Theorem app_full_board_never_returns (rng : Rng) (fuel : nat) (s : AppTsx.State)
        (head0 : Position) (rest : list Position) :
  rng_ok rng ->
  AppTsx.gameOver s = false ->
  AppTsx.snake s = head0 :: rest ->
  advance (AppTsx.direction s) head0 = AppTsx.food s ->
  AppTsx.checkCollision (AppTsx.snake s) (AppTsx.food s) = false ->
  (forall p, inGrid p -> p = AppTsx.food s \/ In p (AppTsx.snake s)) ->
  AppTsx.moveSnake rng fuel s = None.
Proof.
  intros Hok Hrun Hs Hadv Hfree Hfull.
  unfold AppTsx.moveSnake. rewrite Hrun. cbv zeta.
  rewrite Hs in *. rewrite Hadv, Hfree, Position_eqb_refl.
  unfold generateRandomPosition.
  rewrite (app_retryFood_diverges rng (AppTsx.food s :: head0 :: rest) Hok);
    [reflexivity | | split; apply Hok].
  intros p Hp. destruct (Hfull p Hp) as [-> | Hin]; [left; reflexivity | right; exact Hin].
Qed.

Lemma fullApp_covers (p : Position) :
  inGrid p -> p = AppTsx.food fullApp \/ In p (AppTsx.snake fullApp).
Proof.
  intros Hp.
  assert (Hall : forallb (occupies (AppTsx.food fullApp :: AppTsx.snake fullApp))
                         allCells = true) by (vm_compute; reflexivity).
  rewrite forallb_forall in Hall.
  specialize (Hall p (inGrid_allCells p Hp)).
  apply occupies_In in Hall. destruct Hall as [E | Hin]; [left | right]; auto.
Qed.

Lemma distinctb_NoDup (l : list Position) : distinctb l = true -> NoDup l.
Proof.
  induction l as [| a l IH]; [intros _; constructor |].
  simpl. rewrite andb_true_iff, negb_true_iff. intros [Ha Hl].
  constructor; [apply occupies_not_In, Ha | apply IH, Hl].
Qed.

Lemma adjacentb_adjacent (a b : Position) : adjacentb a b = true -> adjacent a b.
Proof.
  unfold adjacentb. rewrite existsb_exists. intros (d & _ & E).
  exists d. apply Position_eqb_eq, E.
Qed.

Lemma connectedb_connected (l : list Position) :
  connectedb l = true -> connected l.
Proof.
  induction l as [| a l IH]; [intros _; exact I |].
  destruct l as [| b l]; [intros _; exact I |].
  change (connectedb (a :: b :: l))
    with (adjacentb a b && connectedb (b :: l)).
  rewrite andb_true_iff. intros [Hab Hl].
  split; [apply adjacentb_adjacent, Hab | apply IH, Hl].
Qed.

(** The won game is a game: 899 distinct cells of the grid, each next to
    the following one. *)
Lemma fullApp_is_a_game :
  length (AppTsx.snake fullApp) = 899%nat
  /\ NoDup (AppTsx.snake fullApp)
  /\ connected (AppTsx.snake fullApp)
  /\ Forall inGrid (AppTsx.snake fullApp).
Proof.
  split; [vm_compute; reflexivity |].
  split; [apply distinctb_NoDup; vm_compute; reflexivity |].
  split; [apply connectedb_connected; vm_compute; reflexivity |].
  apply Forall_forall. intros p Hp. apply outOfGrid_false.
  assert (H : forallb (fun c => negb (outOfGrid c)) (AppTsx.snake fullApp) = true)
    by (vm_compute; reflexivity).
  rewrite forallb_forall in H. specialize (H p Hp).
  apply negb_true_iff in H. exact H.
Qed.

Lemma app_full_board_never_returns_witness :
  AppTsx.moveSnake stuckRng 1000 fullApp = None.
Proof.
  apply (app_full_board_never_returns stuckRng 1000 fullApp << 0, 0 >>
           (tl wonPath)).
  - exact stuckRng_ok.
  - reflexivity.
  - vm_compute. reflexivity.
  - reflexivity.
  - vm_compute. reflexivity.
  - exact fullApp_covers.
Defined.

(** * What is drawn *)

(** X23: the square drawn for a cell lies within the board exactly when the
    cell is on the grid, and otherwise has no pixel on the board (the
    placeholder (-1, -1) is not visible); the squares of two cells share a
    pixel only if the cells are the same. *)
Theorem squares_on_the_board (p q : Position) :
  (insideBoard (cellBox p) <-> inGrid p)
  /\ (offBoard (cellBox p) <-> ~ inGrid p)
  /\ (disjointBoxes (cellBox p) (cellBox q) <-> p <> q).
Proof.
  destruct p as [a b], q as [c d].
  unfold insideBoard, offBoard, disjointBoxes, cellBox, inGrid, BOARD_WIDTH,
    BOARD_HEIGHT, GRID_SIZE, CELL_SIZE.
  cbn [left top width height Position.x Position.y].
  split; [lia |]. split; [lia |].
  split.
  - intros H E. injection E as -> ->. lia.
  - intros H.
    destruct (Z.eq_dec a c) as [-> | Hac]; [| lia].
    destruct (Z.eq_dec b d) as [-> | Hbd]; [| lia].
    exfalso. apply H. reflexivity.
Qed.
